(** * TcpTransport: a shallow embedding of src/impl/tcptransport.cpp

    The transport is modelled as a record of its member variables together
    with the parts of its surroundings that the code talks to: the kernel
    (open descriptors, bytes accepted by [::send], the answers the kernel
    gives to each system call), the PollService registry, and a
    chronological trace of every system call, PollService call and upward
    notification the code performs.  Member functions are state
    transformers over that world; a C++ exception is a [Throw] result that
    keeps the side effects performed so far.

    The model is the POSIX, non-Apple build (no SO_NOSIGPIPE branch). *)

From Stdlib Require Import ZArith List Lia.
From Stdlib.Strings Require Import Byte.
From stdpp Require Import base option list gmap.

Local Open Scope Z_scope.
Local Open Scope nat_scope.

(** ** Data model *)

Abbreviation socket_t := Z (only parsing).
Definition INVALID_SOCKET : socket_t := (-1)%Z.

Abbreviation byte := Byte.byte (only parsing).

(** A message is a byte buffer; [message_ptr] is the nullable pointer. *)
Abbreviation message := (list Byte.byte).
Abbreviation message_ptr := (option (list Byte.byte)).

Definition make_message (data : list byte) : message := data.

(** Modelled from the spec: the connection states of the Transport base
    class (transport.hpp is not part of the sources). *)
Inductive State : Type := Connecting | Connected | Failed | Disconnected.

#[global] Instance State_eq_dec : EqDecision State.
Proof. solve_decision. Defined.

(** Modelled from the spec: PollService::Direction and PollService::Event
    (pollservice.hpp is not part of the sources). *)
Inductive Direction : Type := DirIn | DirOut | DirBoth.
Inductive Event : Type := EvIn | EvOut | EvError | EvTimeout.

(** One node of the [struct addrinfo] list; the list itself is a Rocq list
    and the cursor [ai] is the remaining suffix ([ai->ai_next] is its tail). *)
Record addrinfo : Type := mk_addrinfo { ai_family : Z; ai_addr : Z }.

(** The two callbacks the transport hands to the PollService: the closure of
    a connection attempt (capturing [result] and the cursor [ai]) and
    [std::bind(&TcpTransport::process, this, _1)]. *)
Inductive Callback : Type :=
| ConnectCallback (result ai : list addrinfo)
| ProcessCallback.

Record Params : Type := mk_Params {
  direction : Direction;
  timeout : option nat;          (* seconds *)
  callback : Callback }.

(** The exceptions thrown in the file, named after their messages. *)
Inductive runtime_error : Type :=
| ConnectionIsNotOpen          (* "Connection is not open" *)
| ConnectionClosed             (* "Connection closed" *)
| ResolutionFailed             (* "Resolution failed for ..." *)
| SocketCreationFailed         (* "TCP socket creation failed" *)
| NonBlockingFailed            (* "Failed to set socket non-blocking mode" *)
| ConnectFailed (errno : Z)    (* "TCP connection to ... failed, errno=" *)
| ConnectionFailed             (* "TCP connection failed" *)
| ConnectionTimedOut           (* "TCP connection timed out" *)
| SocketErrorCodeFailed        (* "Failed to get socket error code" *)
| ConnectionFailedErrno (err : Z).

(** ** The kernel's answers *)

(** [::send]: the kernel accepts at most [k] of the offered bytes, or
    reports EAGAIN/EWOULDBLOCK, or another errno. *)
Inductive send_answer : Type :=
| SendAccepts (k : nat)
| SendWouldBlock
| SendFails (errno : Z).

(** [::recv]: the kernel has [data] to hand over (nothing: the peer closed),
    or reports EAGAIN/EWOULDBLOCK, or another errno. *)
Inductive recv_answer : Type :=
| RecvData (data : list byte)
| RecvWouldBlock
| RecvFails (errno : Z).

(** [::connect]: 0, or -1 with EINPROGRESS, EWOULDBLOCK, or another errno. *)
Inductive connect_answer : Type :=
| ConnectDone
| ConnectInProgress
| ConnectWouldBlock
| ConnectRefused (errno : Z).

(** What the kernel answers during one call of [prepare]. *)
Record prepare_answer : Type := mk_prepare_answer {
  socket_ret : socket_t;         (* ::socket *)
  ioctl_ret : Z;                 (* ::ioctlsocket(FIONBIO) *)
  connect_ret : connect_answer   (* ::connect *) }.

(** [::getsockopt(SO_ERROR)]: return value and the pending error. *)
Record sockopt_answer : Type := mk_sockopt_answer {
  getsockopt_ret : Z;
  so_error : Z }.

(** The answers still to come, in the order of the calls.  Every script is
    finite; the meaning of an exhausted script is fixed where it is read. *)
Record Env : Type := mk_Env {
  getaddrinfo_result : option (list addrinfo);
  prepare_script : list prepare_answer;
  sockopt_script : list sockopt_answer;
  send_script : list send_answer;
  recv_script : list recv_answer }.

(** ** The trace *)

Inductive Action : Type :=
| SysGetaddrinfo
| SysFreeaddrinfo
| SysSocket (family : Z) (ret : socket_t)
| SysIoctl (sock : socket_t) (ret : Z)
| SysConnect (sock : socket_t) (addr : Z) (ret : connect_answer)
| SysGetsockopt (sock : socket_t) (ret : sockopt_answer)
| SysSend (sock : socket_t) (offered : list byte) (ret : send_answer)
| SysRecv (sock : socket_t) (bufferSize : nat) (ret : recv_answer)
| SysClosesocket (sock : socket_t)
| PollAdd (sock : socket_t) (params : Params)
| PollRemove (sock : socket_t)
| ChangeState (state : State)
| Recv (message : message_ptr).

(** ** The world *)

Record World : Type := mk_World {
  mSock : socket_t;
  mState : State;
  mSendQueue : list message;
  polls : gmap Z Params;         (* PollService registrations *)
  fds : list socket_t;           (* descriptors open in the kernel *)
  wire : list byte;              (* bytes the kernel accepted from ::send *)
  env : Env;
  trace : list Action }.

Definition set_mSock (s : socket_t) (w : World) : World :=
  mk_World s (mState w) (mSendQueue w) (polls w) (fds w) (wire w) (env w) (trace w).
Definition set_mState (s : State) (w : World) : World :=
  mk_World (mSock w) s (mSendQueue w) (polls w) (fds w) (wire w) (env w) (trace w).
Definition set_mSendQueue (q : list message) (w : World) : World :=
  mk_World (mSock w) (mState w) q (polls w) (fds w) (wire w) (env w) (trace w).
Definition set_polls (p : gmap Z Params) (w : World) : World :=
  mk_World (mSock w) (mState w) (mSendQueue w) p (fds w) (wire w) (env w) (trace w).
Definition set_fds (f : list socket_t) (w : World) : World :=
  mk_World (mSock w) (mState w) (mSendQueue w) (polls w) f (wire w) (env w) (trace w).
Definition set_wire (b : list byte) (w : World) : World :=
  mk_World (mSock w) (mState w) (mSendQueue w) (polls w) (fds w) b (env w) (trace w).
Definition set_env (e : Env) (w : World) : World :=
  mk_World (mSock w) (mState w) (mSendQueue w) (polls w) (fds w) (wire w) e (trace w).
Definition log (a : Action) (w : World) : World :=
  mk_World (mSock w) (mState w) (mSendQueue w) (polls w) (fds w) (wire w) (env w)
           (trace w ++ [a]).

Definition set_prepare_script (s : list prepare_answer) (e : Env) : Env :=
  mk_Env (getaddrinfo_result e) s (sockopt_script e) (send_script e) (recv_script e).
Definition set_sockopt_script (s : list sockopt_answer) (e : Env) : Env :=
  mk_Env (getaddrinfo_result e) (prepare_script e) s (send_script e) (recv_script e).
Definition set_send_script (s : list send_answer) (e : Env) : Env :=
  mk_Env (getaddrinfo_result e) (prepare_script e) (sockopt_script e) s (recv_script e).
Definition set_recv_script (s : list recv_answer) (e : Env) : Env :=
  mk_Env (getaddrinfo_result e) (prepare_script e) (sockopt_script e) (send_script e) s.

(** ** Results and the state-and-exception monad *)

Inductive Result (A : Type) : Type :=
| Ok (a : A)
| Throw (e : runtime_error).
Arguments Ok {A} a.
Arguments Throw {A} e.

Definition M (A : Type) : Type := World -> Result A * World.

Definition ret {A} (a : A) : M A := fun w => (Ok a, w).
Definition throw {A} (e : runtime_error) : M A := fun w => (Throw e, w).
Definition bind {A B} (m : M A) (f : A -> M B) : M B :=
  fun w => match m w with
           | (Ok a, w') => f a w'
           | (Throw e, w') => (Throw e, w')
           end.
Definition try_catch {A} (m : M A) (handler : runtime_error -> M A) : M A :=
  fun w => match m w with
           | (Ok a, w') => (Ok a, w')
           | (Throw e, w') => handler e w'
           end.
Definition get {A} (f : World -> A) : M A := fun w => (Ok (f w), w).
Definition modify (f : World -> World) : M unit := fun w => (Ok tt, f w).

Notation "x <- m ;; k" := (bind m (fun x => k))
  (at level 100, m at next level, right associativity).
Notation "m ;;; k" := (bind m (fun _ => k))
  (at level 100, right associativity).

(** ** Collaborators *)

(** Modelled from the spec: the Transport base class notifies the owning
    layer of a state transition ([changeState]) and delivers a message or,
    with a null message, the end-of-stream signal upward ([recv]). *)
Definition changeState (s : State) : M unit :=
  modify (fun w => log (ChangeState s) (set_mState s w)).
Definition recv (m : message_ptr) : M unit :=
  modify (log (Recv m)).
Definition state : M State := get mState.

(** Modelled from the spec: the PollService keeps at most one registration
    per socket, a new one replacing the old, and [remove] cancels it. *)
Definition PollService_add (sock : socket_t) (params : Params) : M unit :=
  modify (fun w => log (PollAdd sock params) (set_polls (<[sock := params]> (polls w)) w)).
Definition PollService_remove (sock : socket_t) : M unit :=
  modify (fun w => log (PollRemove sock) (set_polls (delete sock (polls w)) w)).

(** Modelled from the spec: the send queue is an unbounded FIFO of messages
    (queue.hpp is not part of the sources); [exchange] replaces the head. *)
Definition Queue_push (m : message) : M unit :=
  modify (fun w => set_mSendQueue (mSendQueue w ++ [m]) w).
Definition Queue_pop : M unit :=
  modify (fun w => set_mSendQueue (tail (mSendQueue w)) w).
Definition Queue_exchange (m : message) : M unit :=
  modify (fun w => match mSendQueue w with
                   | [] => w
                   | _ :: rest => set_mSendQueue (m :: rest) w
                   end).

(** [::closesocket]: the descriptor, if open, is released. *)
Fixpoint release (sock : socket_t) (l : list socket_t) : list socket_t :=
  match l with
  | [] => []
  | fd :: l' => if Z.eqb fd sock then l' else fd :: release sock l'
  end.
Definition closesocket (sock : socket_t) : M unit :=
  modify (fun w => log (SysClosesocket sock) (set_fds (release sock (fds w)) w)).

(** ** TcpTransport::setPoll *)

Definition setPoll (d : Direction) : M unit :=
  sock <- get mSock ;;
  PollService_add sock (mk_Params d None ProcessCallback).

(** ** TcpTransport::trySendMessage *)

(** What the caller sees after [trySendMessage(message)]: [true] with
    [message] reset to null, or [false] with [message] replaced by the
    unsent suffix. *)
Inductive TrySend : Type :=
| SentAll
| Unsent (message : message).

(** One [::send(mSock, data, size, flags)] answered by [a]: the kernel takes
    the first [min k size] of the offered bytes. *)
Definition sys_send (a : send_answer) (rest : list send_answer)
    (offered : list byte) (w : World) : World :=
  let w := set_env (set_send_script rest (env w)) w in
  let w := log (SysSend (mSock w) offered a) w in
  match a with
  | SendAccepts k => set_wire (wire w ++ take k offered) w
  | _ => w
  end.

(** The [while (size)] loop.  [off] is [data - message->data()].  The
    pending answers are passed along with the world so that the recursion is
    structural; an exhausted script answers EWOULDBLOCK. *)
Fixpoint trySendMessage_loop (script : list send_answer) (message : message)
    (off size : nat) (w : World) : Result TrySend * World :=
  match size with
  | O => (Ok SentAll, w)
  | S _ =>
    let offered := take size (drop off message) in
    match script with
    | [] =>
      (Ok (Unsent (make_message (drop (length message - size) message))),
       log (SysSend (mSock w) offered SendWouldBlock) w)
    | a :: script' =>
      let w' := sys_send a script' offered w in
      match a with
      | SendAccepts k =>
        let len := Nat.min k size in
        trySendMessage_loop script' message (off + len) (size - len) w'
      | SendWouldBlock =>
        (Ok (Unsent (make_message (drop (length message - size) message))), w')
      | SendFails _ => (Throw ConnectionClosed, w')
      end
    end
  end.

Definition trySendMessage (message : message) : M TrySend :=
  fun w => trySendMessage_loop (send_script (env w)) message 0 (length message) w.

(** ** TcpTransport::trySendQueue *)

(** The [while (auto next = mSendQueue.peek())] loop; [queue] is the queue
    as [peek] sees it at the head of each iteration. *)
Fixpoint trySendQueue_loop (queue : list message) : M bool :=
  match queue with
  | [] => ret true
  | next :: queue' =>
    r <- trySendMessage next ;;
    match r with
    | Unsent message => Queue_exchange message ;;; ret false
    | SentAll => Queue_pop ;;; trySendQueue_loop queue'
    end
  end.

Definition trySendQueue : M bool :=
  fun w => trySendQueue_loop (mSendQueue w) w.

(** ** TcpTransport::outgoing *)

Definition outgoing (message : message) : M bool :=
  flushed <- trySendQueue ;;
  if flushed then
    r <- trySendMessage message ;;
    match r with
    | SentAll => ret true
    | Unsent rest => Queue_push rest ;;; setPoll DirBoth ;;; ret false
    end
  else
    Queue_push message ;;; setPoll DirBoth ;;; ret false.

(** ** TcpTransport::send *)

Definition send (message : message_ptr) : M bool :=
  s <- state ;;
  if decide (s <> Connected) then throw ConnectionIsNotOpen
  else
    s <- state ;;
    if decide (s <> Connected) then ret false
    else
      match message with
      | None => trySendQueue
      | Some m => outgoing m
      end.

(** ** TcpTransport::incoming *)

Definition incoming (message : message_ptr) : M unit :=
  match message with
  | None => ret tt
  | Some _ => recv message
  end.

(** ** TcpTransport::close and TcpTransport::stop *)

Definition close : M unit :=
  sock <- get mSock ;;
  (if decide (sock <> INVALID_SOCKET) then
     PollService_remove sock ;;;
     closesocket sock ;;;
     modify (set_mSock INVALID_SOCKET)
   else ret tt) ;;;
  changeState Disconnected.

(** [Transport::stop()] belongs to the base class, which is not part of the
    sources: its answer is the parameter [base_stop]. *)
Definition stop (base_stop : bool) : M bool :=
  if negb base_stop then ret false
  else close ;;; ret true.

(** ** TcpTransport::prepare *)

(** The kernel's answers for this call of [prepare]; with the script
    exhausted, [::socket] fails. *)
Definition next_prepare_answer : M prepare_answer :=
  fun w => match prepare_script (env w) with
           | [] => (Ok (mk_prepare_answer INVALID_SOCKET 0 ConnectDone), w)
           | a :: rest => (Ok a, set_env (set_prepare_script rest (env w)) w)
           end.

(** [::socket]: a result other than INVALID_SOCKET is a new open descriptor. *)
Definition sys_socket (family : Z) (a : prepare_answer) : M socket_t :=
  fun w =>
    let fd := socket_ret a in
    let w := log (SysSocket family fd) w in
    (Ok fd, if decide (fd = INVALID_SOCKET) then w else set_fds (fds w ++ [fd]) w).

Definition sys_ioctl (sock : socket_t) (a : prepare_answer) : M Z :=
  modify (log (SysIoctl sock (ioctl_ret a))) ;;; ret (ioctl_ret a).

Definition sys_connect (sock : socket_t) (addr : Z) (a : prepare_answer) : M connect_answer :=
  modify (log (SysConnect sock addr (connect_ret a))) ;;; ret (connect_ret a).

Definition prepare (addr : addrinfo) : M unit :=
  try_catch
    (a <- next_prepare_answer ;;
     (* Create socket *)
     sock <- sys_socket (ai_family addr) a ;;
     modify (set_mSock sock) ;;;
     if decide (sock = INVALID_SOCKET) then throw SocketCreationFailed
     else
       (* Set non-blocking *)
       r <- sys_ioctl sock a ;;
       if (r <? 0)%Z then throw NonBlockingFailed
       else
         (* Initiate connection *)
         c <- sys_connect sock (ai_addr addr) a ;;
         match c with
         | ConnectRefused errno => throw (ConnectFailed errno)
         | _ => ret tt
         end)
    (fun e =>
       sock <- get mSock ;;
       (if decide (sock <> INVALID_SOCKET) then
          closesocket sock ;;;
          modify (set_mSock INVALID_SOCKET)
        else ret tt) ;;;
       throw e).

(** ** TcpTransport::connect *)

Definition freeaddrinfo : M unit := modify (log SysFreeaddrinfo).

Definition connect_timeout : nat := 10.

(** The [attempt] closure.  The handler of the [try] block calls
    [recurse(ai->ai_next, recurse)] and does not return: control continues
    with the registration below. *)
Fixpoint attempt (result ai : list addrinfo) : M unit :=
  match ai with
  | [] =>
    freeaddrinfo ;;;
    changeState Failed
  | a :: ai_next =>
    try_catch (prepare a) (fun e => attempt result ai_next) ;;;
    sock <- get mSock ;;
    PollService_add sock
      (mk_Params DirOut (Some connect_timeout) (ConnectCallback result ai))
  end.

(** [::getsockopt(mSock, SOL_SOCKET, SO_ERROR, ...)]; with the script
    exhausted the call fails. *)
Definition sys_getsockopt : M sockopt_answer :=
  fun w =>
    let (a, rest) := match sockopt_script (env w) with
                     | [] => (mk_sockopt_answer (-1) 0, [])
                     | a :: rest => (a, rest)
                     end in
    (Ok a, log (SysGetsockopt (mSock w) a)
               (set_env (set_sockopt_script rest (env w)) w)).

(** The poll callback of an attempt, with [result] and [ai] as captured. *)
Definition connect_callback (result ai : list addrinfo) (event : Event) : M unit :=
  try_catch
    (match event with
     | EvError => throw ConnectionFailed
     | EvTimeout => throw ConnectionTimedOut
     | EvIn => ret tt
     | EvOut =>
       r <- sys_getsockopt ;;
       if decide (getsockopt_ret r <> 0%Z) then throw SocketErrorCodeFailed
       else if decide (so_error r <> 0%Z) then throw (ConnectionFailedErrno (so_error r))
       else
         (* Success *)
         freeaddrinfo ;;;
         changeState Connected ;;;
         setPoll DirIn
     end)
    (fun e =>
       sock <- get mSock ;;
       PollService_remove sock ;;;
       closesocket sock ;;;
       modify (set_mSock INVALID_SOCKET) ;;;
       attempt result (tail ai)).

Definition sys_getaddrinfo : M (option (list addrinfo)) :=
  modify (log SysGetaddrinfo) ;;; get (fun w => getaddrinfo_result (env w)).

Definition connect : M unit :=
  changeState Connecting ;;;
  (* Resolve hostname *)
  r <- sys_getaddrinfo ;;
  match r with
  | None => throw ResolutionFailed
  | Some result =>
    (* Chain connection attempt to each address *)
    attempt result result
  end.

(** ** TcpTransport::start *)

(** [Transport::start()] of the base class comes first; it touches nothing
    that is modelled here. *)
Definition start : M unit :=
  sock <- get mSock ;;
  if decide (sock = INVALID_SOCKET) then connect
  else
    changeState Connected ;;;
    setPoll DirIn.

(** ** TcpTransport::process *)

Definition bufferSize : nat := 4096.

(** How the [switch] is left: by [return], or by [break] towards the
    disconnect sequence. *)
Inductive Flow : Type := Return | Break.

(** One [::recv(mSock, buffer, bufferSize, 0)] answered by [a]. *)
Definition sys_recv (a : recv_answer) (rest : list recv_answer) : M unit :=
  modify (fun w => log (SysRecv (mSock w) bufferSize a)
                       (set_env (set_recv_script rest (env w)) w)).

(** The [while ((len = ::recv(...)) > 0)] loop and the two tests after it.
    The kernel hands over at most [bufferSize] bytes per call; an exhausted
    script answers EWOULDBLOCK. *)
Fixpoint process_In_loop (script : list recv_answer) : M Flow :=
  match script with
  | [] =>
    modify (fun w => log (SysRecv (mSock w) bufferSize RecvWouldBlock) w) ;;;
    ret Return
  | a :: script' =>
    sys_recv a script' ;;;
    match a with
    | RecvData data =>
      match take bufferSize data with
      | [] => ret Break                                  (* clean close *)
      | b => incoming (Some (make_message b)) ;;; process_In_loop script'
      end
    | RecvWouldBlock => ret Return
    | RecvFails _ => ret Break                           (* connection lost *)
    end
  end.

Definition process_switch (event : Event) : M Flow :=
  match event with
  | EvError => ret Break
  | EvTimeout =>
    incoming (Some (make_message [])) ;;;
    ret Return
  | EvOut =>
    drained <- trySendQueue ;;
    (if drained then setPoll DirIn else ret tt) ;;;
    ret Return
  | EvIn =>
    fun w => process_In_loop (recv_script (env w)) w
  end.

(** The [try] block with its handler, which logs and falls through. *)
Definition process_try (event : Event) : M Flow :=
  try_catch (process_switch event) (fun e => ret Break).

(** The statements after the [try] block. *)
Definition disconnect : M unit :=
  sock <- get mSock ;;
  PollService_remove sock ;;;
  changeState Disconnected ;;;
  recv None.

Definition process (event : Event) : M unit :=
  flow <- process_try event ;;
  match flow with
  | Return => ret tt
  | Break => disconnect
  end.

(** ** The PollService invoking a callback *)

(** Modelled from the spec: the PollService delivers one event per
    invocation to the callback registered for a socket, if there is one. *)
Definition run_callback (cb : Callback) (event : Event) : M unit :=
  match cb with
  | ConnectCallback result ai => connect_callback result ai event
  | ProcessCallback => process event
  end.

Definition PollService_deliver (sock : socket_t) (event : Event) : M unit :=
  fun w => match polls w !! sock with
           | None => (Ok tt, w)
           | Some params => run_callback (callback params) event w
           end.

(** ** Runs *)

(** What a caller or the PollService can do to a transport. *)
Inductive Op : Type :=
| OpStart
| OpStop (base_stop : bool)
| OpSend (message : message_ptr)
| OpEvent (sock : socket_t) (event : Event).

(** The outcome of an operation: the value returned, or the exception. *)
Inductive Outcome : Type :=
| Returned (b : option bool)
| Raised (e : runtime_error).

Definition outcome_bool (r : Result bool) : Outcome :=
  match r with Ok b => Returned (Some b) | Throw e => Raised e end.
Definition outcome_unit (r : Result unit) : Outcome :=
  match r with Ok _ => Returned None | Throw e => Raised e end.

Definition step (op : Op) (w : World) : Outcome * World :=
  match op with
  | OpStart => let (r, w') := start w in (outcome_unit r, w')
  | OpStop b => let (r, w') := stop b w in (outcome_bool r, w')
  | OpSend m => let (r, w') := send m w in (outcome_bool r, w')
  | OpEvent sock ev => let (r, w') := PollService_deliver sock ev w in (outcome_unit r, w')
  end.

Fixpoint run (ops : list Op) (w : World) : list Outcome * World :=
  match ops with
  | [] => ([], w)
  | op :: ops' =>
    let (o, w1) := step op w in
    let (os, w2) := run ops' w1 in
    (o :: os, w2)
  end.

(** A transport built by the active constructor, before [start()]. *)
Definition active_transport (e : Env) : World :=
  mk_World INVALID_SOCKET Disconnected [] ∅ [] [] e [].

(** A transport built by the passive constructor around the connected
    socket [sock]. *)
Definition passive_transport (sock : socket_t) (e : Env) : World :=
  mk_World sock Disconnected [] ∅ [sock] [] e [].

(** ** Vocabulary of the statements *)

(** The members and kernel objects that sending leaves alone. *)
Definition same_transport (w w' : World) : Prop :=
  mSock w' = mSock w /\ mState w' = mState w /\ polls w' = polls w /\ fds w' = fds w.

(** [::send] reported an errno other than EAGAIN/EWOULDBLOCK. *)
Definition send_failed (a : Action) : bool :=
  match a with
  | SysSend _ _ (SendFails _) => true
  | _ => false
  end.

Definition no_send_failure (tr : list Action) : Prop :=
  Forall (fun a => send_failed a = false) tr.

(** The trace of [w'] continues the trace of [w]. *)
Definition extends (w w' : World) : Prop :=
  exists ext, trace w' = trace w ++ ext.

(** The payloads of a sequence of [send] arguments; a null message carries
    none. *)
Definition payloads (msgs : list message_ptr) : list message :=
  flat_map (fun m => match m with Some x => [x] | None => [] end) msgs.

(** The send queue against the history of submitted messages: everything
    before the head has gone out whole, the head is what is left of one
    message after [part] of it went out, and the entries behind the head are
    the following messages as they were submitted.  [base] is what was on
    the wire before the history began. *)
Definition in_flight (base : list byte) (history : list message) (w : World) : Prop :=
  match mSendQueue w with
  | [] => wire w = base ++ concat history
  | head :: rest =>
      exists done part,
        history = done ++ (part ++ head) :: rest /\
        wire w = base ++ concat done ++ part
  end.

Definition returned (o : Outcome) : Prop :=
  match o with Returned _ => True | Raised _ => False end.

(** A transport in the Connected state around socket 7, with nothing queued
    and a kernel that takes one byte, then blocks, then takes the rest. *)
Definition example_connected : World :=
  mk_World 7%Z Connected [] (<[7%Z := mk_Params DirIn None ProcessCallback]> ∅)
           [7%Z] []
           (mk_Env None [] [] [SendAccepts 1; SendWouldBlock; SendAccepts 5; SendAccepts 1] [])
           [].

(** [m] leaves the world related by [R] to the world it started in. *)
Definition preserves {A} (R : World -> World -> Prop) (m : M A) : Prop :=
  forall w, R w (snd (m w)).

(** Nothing is written and the queue is left alone. *)
Definition quiet (w w' : World) : Prop :=
  mSendQueue w' = mSendQueue w /\ wire w' = wire w /\ extends w w'.

(** The messages of the [send] calls of a run that returned. *)
Fixpoint accepted (ops : list Op) (outs : list Outcome) : list message :=
  match ops, outs with
  | OpSend (Some m) :: ops', Returned _ :: outs' => m :: accepted ops' outs'
  | _ :: ops', _ :: outs' => accepted ops' outs'
  | _, _ => []
  end.

(** What a flush makes of [queue]: either everything went out, or the
    entries in [done] went out whole together with [part] of the next one,
    whose unsent suffix [h] is the new head in front of the untouched [t]. *)
Definition drained_to (queue q : list message) (written : list byte) : Prop :=
  (q = [] /\ written = concat queue) \/
  (exists done part h t,
     queue = done ++ (part ++ h) :: t /\ h <> [] /\
     q = h :: t /\ written = concat done ++ part).

(** A Connected transport with one message queued and a kernel whose send
    buffer is full. *)
Definition example_backlog : World :=
  mk_World 7%Z Connected [["a"%byte]]
           (<[7%Z := mk_Params DirBoth None ProcessCallback]> ∅)
           [7%Z] []
           (mk_Env None [] [] [SendWouldBlock] [])
           [].

(** A Connected transport whose kernel takes one byte at a time and blocks
    in between. *)
Definition example_slow : World :=
  mk_World 7%Z Connected [] (<[7%Z := mk_Params DirIn None ProcessCallback]> ∅)
           [7%Z] []
           (mk_Env None [] [] [SendAccepts 1; SendWouldBlock; SendAccepts 1; SendWouldBlock] [])
           [].

(** ** Descriptors and registrations as the trace tells them *)

(** The effect of one action on the set of open descriptors and on the set
    of registered sockets. *)
Definition kernel_step (open : list socket_t) (a : Action) : list socket_t :=
  match a with
  | SysSocket _ fd => if decide (fd = INVALID_SOCKET) then open else open ++ [fd]
  | SysClosesocket fd => release fd open
  | _ => open
  end.

Definition poll_step (regs : gset Z) (a : Action) : gset Z :=
  match a with
  | PollAdd sock _ => {[sock]} ∪ regs
  | PollRemove sock => regs ∖ {[sock]}
  | _ => regs
  end.

Definition open_after (tr : list Action) : list socket_t :=
  fold_left kernel_step tr [].

Definition registered_after (tr : list Action) : gset Z :=
  fold_left poll_step tr ∅.

(** The world agrees with its trace. *)
Definition tracked (w : World) : Prop :=
  fds w = open_after (trace w) /\ dom (polls w) = registered_after (trace w).

(** Actions that neither create nor close a descriptor. *)
Definition tame_action (a : Action) : Prop :=
  match a with
  | SysSocket _ _ | SysClosesocket _ => False
  | _ => True
  end.

(** A step that keeps the handle and the descriptors, registers nothing but
    the handle, and keeps the world in agreement with its trace. *)
Definition tame (w w' : World) : Prop :=
  mSock w' = mSock w /\ fds w' = fds w /\
  (exists ext, trace w' = trace w ++ ext /\ Forall tame_action ext) /\
  dom (polls w') ⊆ dom (polls w) ∪ {[mSock w]} /\
  (tracked w -> tracked w').

(** Actions that change neither the descriptors nor the registrations. *)
Definition inert_action (a : Action) : Prop :=
  match a with
  | SysSocket _ _ | SysClosesocket _ | PollAdd _ _ | PollRemove _ => False
  | _ => True
  end.

(** An answer of [::recv] that ends the read loop: anything but data of
    positive length. *)
Definition ends_read (a : recv_answer) : Prop :=
  match a with
  | RecvData data => data = []
  | _ => True
  end.

(** What the read loop logs for one chunk of data. *)
Definition chunk_actions (sock : socket_t) (data : list byte) : list Action :=
  [SysRecv sock bufferSize (RecvData data); Recv (Some (take bufferSize data))].

(** The disconnect sequence as it appears in the trace. *)
Definition disconnect_actions (sock : socket_t) : list Action :=
  [PollRemove sock; ChangeState Disconnected; Recv None].

(** What close() logs when the handle [sock] is live. *)
Definition close_actions (sock : socket_t) : list Action :=
  [PollRemove sock; SysClosesocket sock; ChangeState Disconnected].

(** A Connected transport around socket 7 whose peer sends two chunks and
    then closes. *)
Definition example_receiving : World :=
  mk_World 7%Z Connected [] (<[7%Z := mk_Params DirIn None ProcessCallback]> ∅)
           [7%Z] []
           (mk_Env None [] [] []
              [RecvData ["a"; "b"]%byte; RecvData ["c"]%byte; RecvData []])
           [].

(** Whenever the trace creates a descriptor, no descriptor is open and no
    live socket is registered with the PollService. *)
Definition safe_trace (tr : list Action) : Prop :=
  forall tr1 family fd tr2,
    tr = tr1 ++ SysSocket family fd :: tr2 ->
    fd <> INVALID_SOCKET ->
    open_after tr1 = [] /\ registered_after tr1 ⊆ {[INVALID_SOCKET]}.

(** The transport holds the one open descriptor, or the invalid sentinel
    and nothing is open; only the handle (or the sentinel) is registered. *)
Definition one_handle (w : World) : Prop :=
  fds w = (if decide (mSock w = INVALID_SOCKET) then [] else [mSock w]) /\
  dom (polls w) ⊆ {[mSock w; INVALID_SOCKET]}.

Definition chain_invariant (w : World) : Prop :=
  tracked w /\ safe_trace (trace w) /\ one_handle w.

(** The statements [PollService::Instance().remove(mSock);
    ::closesocket(mSock); mSock = INVALID_SOCKET;], as close() and the
    handler of the connect callback both have them. *)
Definition teardown (w : World) : World :=
  set_mSock INVALID_SOCKET
    (log (SysClosesocket (mSock w))
       (set_fds (release (mSock w) (fds w))
          (log (PollRemove (mSock w))
             (set_polls (delete (mSock w) (polls w)) w)))).

(** [ext] leads from the descriptors [o] and registrations [r] to [o'] and
    [r'], and creates a descriptor only while nothing is open and no live
    socket is registered. *)
Fixpoint follows (o : list socket_t) (r : gset Z) (ext : list Action)
    (o' : list socket_t) (r' : gset Z) : Prop :=
  match ext with
  | [] => o' = o /\ r' = r
  | a :: ext' =>
    (forall family fd, a = SysSocket family fd -> fd <> INVALID_SOCKET ->
       o = [] /\ r ⊆ {[INVALID_SOCKET]}) /\
    follows (kernel_step o a) (poll_step r a) ext' o' r'
  end.

(** Two resolved addresses: the connect to the first is refused at once,
    the connect to the second is in progress. *)
Definition example_two_candidates : Env :=
  mk_Env (Some [mk_addrinfo 2 100; mk_addrinfo 2 101])
         [mk_prepare_answer 5 0 (ConnectRefused 111);
          mk_prepare_answer 6 0 ConnectInProgress]
         [mk_sockopt_answer 0 0] [] [].

(** One resolved address whose connect is refused at once. *)
Definition example_unreachable : Env :=
  mk_Env (Some [mk_addrinfo 2 100])
         [mk_prepare_answer 5 0 (ConnectRefused 111)]
         [] [] [].

(** Two resolved addresses, both refused at once; when the second is tried
    again its connect is in progress and then succeeds. *)
Definition example_late_success : Env :=
  mk_Env (Some [mk_addrinfo 2 100; mk_addrinfo 2 101])
         [mk_prepare_answer 5 0 (ConnectRefused 111);
          mk_prepare_answer 6 0 (ConnectRefused 111);
          mk_prepare_answer 8 0 ConnectInProgress]
         [mk_sockopt_answer 0 0] [] [].

Definition is_failed_transition (a : Action) : bool :=
  match a with ChangeState Failed => true | _ => false end.

Definition is_freeaddrinfo (a : Action) : bool :=
  match a with SysFreeaddrinfo => true | _ => false end.

(** The registration an attempt makes for the candidate list [result] at
    the cursor [ai]. *)
Definition attempt_params (result ai : list addrinfo) : Params :=
  mk_Params DirOut (Some connect_timeout) (ConnectCallback result ai).

(** An answer of [::send] that takes at least one byte. *)
Definition accepting (a : send_answer) : Prop :=
  match a with
  | SendAccepts (S _) => True
  | _ => False
  end.

(** ** Vocabulary of the further properties *)

(** The answers of the kernel under which [prepare] returns: a descriptor,
    non-blocking mode set, and a connect that is done or under way. *)
Definition pending (a : prepare_answer) : Prop :=
  socket_ret a <> INVALID_SOCKET /\
  (ioctl_ret a <? 0)%Z = false /\
  forall errno, connect_ret a <> ConnectRefused errno.

(** The ways a pending attempt is given up in its poll callback: an Error
    event, a Timeout event, or an Out event after which [::getsockopt]
    fails or reports a pending error. *)
Inductive failure : Type :=
| ByError
| ByTimeout
| BySoError (a : sockopt_answer).

Definition failure_ok (f : failure) : Prop :=
  match f with
  | BySoError a => getsockopt_ret a <> 0%Z \/ so_error a <> 0%Z
  | _ => True
  end.

Definition event_of (f : failure) : Event :=
  match f with
  | ByError => EvError
  | ByTimeout => EvTimeout
  | BySoError _ => EvOut
  end.

Definition sockopts (fs : list failure) : list sockopt_answer :=
  flat_map (fun f => match f with BySoError a => [a] | _ => [] end) fs.

(** What the trace shows of one attempt that becomes pending and is then
    given up: socket, non-blocking mode, connect, registration; the query of
    the pending error if the event was Out; unregistration and close. *)
Definition attempt_actions (result ai : list addrinfo) (c : addrinfo)
    (a : prepare_answer) (f : failure) : list Action :=
  [SysSocket (ai_family c) (socket_ret a);
   SysIoctl (socket_ret a) (ioctl_ret a);
   SysConnect (socket_ret a) (ai_addr c) (connect_ret a);
   PollAdd (socket_ret a) (attempt_params result ai)]
  ++ match f with
     | BySoError s => [SysGetsockopt (socket_ret a) s]
     | _ => []
     end
  ++ [PollRemove (socket_ret a); SysClosesocket (socket_ret a)].

Fixpoint chain_actions (result ai : list addrinfo) (answers : list prepare_answer)
    (fs : list failure) : list Action :=
  match ai, answers, fs with
  | c :: ai', a :: answers', f :: fs' =>
    attempt_actions result ai c a f ++ chain_actions result ai' answers' fs'
  | _, _, _ => []
  end.

(** The events that give up the attempts one after the other, each
    delivered for the socket of the attempt then pending. *)
Fixpoint chain_events (answers : list prepare_answer) (fs : list failure) : list Op :=
  match answers, fs with
  | a :: answers', f :: fs' =>
    OpEvent (socket_ret a) (event_of f) :: chain_events answers' fs'
  | _, _ => []
  end.

(** What the trace shows of the attempt that succeeds. *)
Definition success_actions (result ai : list addrinfo) (c : addrinfo)
    (a : prepare_answer) : list Action :=
  [SysSocket (ai_family c) (socket_ret a);
   SysIoctl (socket_ret a) (ioctl_ret a);
   SysConnect (socket_ret a) (ai_addr c) (connect_ret a);
   PollAdd (socket_ret a) (attempt_params result ai);
   SysGetsockopt (socket_ret a) (mk_sockopt_answer 0 0);
   SysFreeaddrinfo;
   ChangeState Connected;
   PollAdd (socket_ret a) (mk_Params DirIn None ProcessCallback)].

(** No descriptor, no registration, no handle. *)
Definition idle (w : World) : Prop :=
  mSock w = INVALID_SOCKET /\ fds w = [] /\ polls w = ∅.

(** A Connected transport around socket 7 whose kernel takes one byte and
    then reports EPIPE. *)
Definition example_broken_pipe : World :=
  mk_World 7%Z Connected [] (<[7%Z := mk_Params DirIn None ProcessCallback]> ∅)
           [7%Z] []
           (mk_Env None [] [] [SendAccepts 1; SendFails 32] [])
           [].

(** Operations that arrive late for a transport that has been stopped:
    events for the socket it held, and sends. *)
Definition late_for (sock : socket_t) (op : Op) : Prop :=
  match op with
  | OpEvent s _ => s = sock
  | OpSend _ => True
  | _ => False
  end.

(** What [step] reports for a late operation. *)
Definition late_outcome (op : Op) : Outcome :=
  match op with
  | OpSend _ => Raised ConnectionIsNotOpen
  | _ => Returned None
  end.

(** Three resolved addresses and a kernel under which each connect is under
    way; the first attempt is then given up on an Error event, the second on
    a pending error reported by [::getsockopt]. *)
Definition example_three_candidates : Env :=
  mk_Env (Some [mk_addrinfo 2 100; mk_addrinfo 10 101; mk_addrinfo 2 102])
         [mk_prepare_answer 5 0 ConnectInProgress;
          mk_prepare_answer 6 0 ConnectInProgress;
          mk_prepare_answer 5 0 ConnectDone]
         [mk_sockopt_answer 0 111; mk_sockopt_answer 0 0] [] [].

(** Two resolved addresses whose connects get under way; the first attempt
    times out and the second reports ECONNREFUSED as its pending error. *)
Definition example_all_give_up : Env :=
  mk_Env (Some [mk_addrinfo 2 100; mk_addrinfo 10 101])
         [mk_prepare_answer 5 0 ConnectInProgress;
          mk_prepare_answer 6 0 ConnectDone]
         [mk_sockopt_answer 0 111] [] [].

(** ** The constructors and remoteAddress *)

(** The members that name the peer; a [std::string] is its bytes. *)
Record Names : Type := mk_Names {
  mIsActive : bool;
  mHostname : list byte;
  mService : list byte }.

Definition TcpTransport_active (hostname service : list byte) (e : Env) : Names * World :=
  (mk_Names true hostname service, active_transport e).

(** What the kernel and the resolver answer during the passive
    constructor: [::ioctlsocket(FIONBIO)], [::getpeername], and
    [::getnameinfo] with the numeric host and service it writes. *)
Record accept_answer : Type := mk_accept_answer {
  nbio_ret : Z;
  getpeername_ret : Z;
  getnameinfo_ret : Z;
  node : list byte;
  serv : list byte }.

(** The exceptions of the passive constructor, named after their
    messages. *)
Inductive constructor_error : Type :=
| FailedNonBlockingMode        (* "Failed to set socket non-blocking mode" *)
| GetsocknameFailed            (* "getsockname failed" *)
| GetnameinfoFailed.           (* "getnameinfo failed" *)

(** [TcpTransport(socket_t sock, state_callback callback)]: the transport
    holds [sock] from the member initialisers on; the names are assigned
    last. *)
Definition TcpTransport_passive (sock : socket_t) (a : accept_answer) (e : Env)
    : (constructor_error + Names) * World :=
  let w := log (SysIoctl sock (nbio_ret a)) (passive_transport sock e) in
  if (nbio_ret a <? 0)%Z then (inl FailedNonBlockingMode, w)
  else if (getpeername_ret a <? 0)%Z then (inl GetsocknameFailed, w)
  else if decide (getnameinfo_ret a <> 0%Z) then (inl GetnameinfoFailed, w)
  else (inr (mk_Names false (node a) (serv a)), w).

Definition remoteAddress (n : Names) : list byte :=
  mHostname n ++ [":"%byte] ++ mService n.

(** * Properties *)

(** ** The monad *)

Lemma bind_ok {A B} (m : M A) (k : A -> M B) w a w1 :
  m w = (Ok a, w1) -> bind m k w = k a w1.
Proof. intros H. unfold bind. now rewrite H. Qed.

Lemma bind_throw {A B} (m : M A) (k : A -> M B) w e w1 :
  m w = (Throw e, w1) -> bind m k w = (Throw e, w1).
Proof. intros H. unfold bind. now rewrite H. Qed.

#[local] Instance extends_preorder : PreOrder extends.
Proof.
  split.
  - intros w. exists []. now rewrite app_nil_r.
  - intros w1 w2 w3 [e1 H1] [e2 H2]. exists (e1 ++ e2).
    now rewrite H2, H1, app_assoc.
Qed.

#[local] Instance same_transport_preorder : PreOrder same_transport.
Proof.
  split.
  - intros w. repeat split.
  - intros w1 w2 w3 (?&?&?&?) (?&?&?&?). repeat split; congruence.
Qed.

Lemma extends_log a w : extends w (log a w).
Proof. now exists [a]. Qed.

Lemma no_send_failure_extends w w' :
  extends w w' -> no_send_failure (trace w') -> no_send_failure (trace w).
Proof.
  intros [ext H] Hn. unfold no_send_failure in *. rewrite H in Hn.
  now apply Forall_app in Hn.
Qed.

(** ** trySendMessage *)

Lemma sys_send_frame a rest offered w :
  same_transport w (sys_send a rest offered w) /\
  mSendQueue (sys_send a rest offered w) = mSendQueue w /\
  send_script (env (sys_send a rest offered w)) = rest /\
  trace (sys_send a rest offered w) = trace w ++ [SysSend (mSock w) offered a].
Proof. destruct a; repeat split. Qed.

Lemma sys_send_wire a rest offered w :
  wire (sys_send a rest offered w) =
  wire w ++ match a with SendAccepts k => take k offered | _ => [] end.
Proof. destruct a; simpl; now rewrite ?app_nil_r. Qed.

(** What one call of the loop does, for a cursor [off] with [size] bytes
    left behind it. *)
Lemma trySendMessage_loop_spec script message off size w :
  off + size = length message ->
  let r := fst (trySendMessage_loop script message off size w) in
  let w' := snd (trySendMessage_loop script message off size w) in
  same_transport w w' /\ mSendQueue w' = mSendQueue w /\ extends w w' /\
  match r with
  | Ok SentAll => wire w' = wire w ++ drop off message
  | Ok (Unsent rest) =>
      rest <> [] /\
      exists part, drop off message = part ++ rest /\ wire w' = wire w ++ part
  | Throw e => e = ConnectionClosed /\ ~ no_send_failure (trace w')
  end.
Proof.
  revert off size w. induction script as [|a script IH]; intros off size w Hlen.
  - destruct size as [|size]; simpl.
    + repeat split; try reflexivity.
      rewrite drop_ge by lia. now rewrite app_nil_r.
    + repeat split; try apply extends_log.
      * intros E. unfold make_message in E. apply (f_equal length) in E.
        rewrite length_drop in E. simpl in E. lia.
      * exists []. simpl. split; [|now rewrite app_nil_r].
        unfold make_message. replace (length message - S size) with off by lia.
        reflexivity.
  - destruct size as [|size].
    + simpl. repeat split; try reflexivity.
      rewrite drop_ge by lia. now rewrite app_nil_r.
    + cbn [trySendMessage_loop].
      set (offered := take (S size) (drop off message)).
      pose proof (sys_send_frame a script offered w) as (Hf & Hq & _ & Htr).
      pose proof (sys_send_wire a script offered w) as Hw.
      assert (Hext : extends w (sys_send a script offered w)) by (eexists; exact Htr).
      destruct a as [k| |errno].
      * set (len := Nat.min k (S size)) in *.
        specialize (IH (off + len) (S size - len) (sys_send (SendAccepts k) script offered w)).
        assert (Hlen' : off + len + (S size - len) = length message) by lia.
        specialize (IH Hlen'). cbv zeta in IH.
        destruct IH as (Hf' & Hq' & Hext' & Hres).
        split; [etransitivity; eassumption|].
        split; [congruence|].
        split; [etransitivity; eassumption|].
        assert (Htk : take k offered = take len (drop off message)).
        { unfold offered. rewrite take_take. reflexivity. }
        destruct (fst (trySendMessage_loop script message (off + len) (S size - len) _))
          as [[|rest]|e].
        -- rewrite Hres, Hw, Htk, <- app_assoc. f_equal.
           rewrite <- (take_drop len (drop off message)) at 2.
           now rewrite drop_drop.
        -- destruct Hres as (Hne & part & Hd & Hw').
           split; [assumption|].
           exists (take len (drop off message) ++ part). split.
           ++ rewrite <- (take_drop len (drop off message)) at 1.
              rewrite drop_drop, Hd. now rewrite app_assoc.
           ++ rewrite Hw', Hw, Htk. now rewrite app_assoc.
        -- assumption.
      * cbn [fst snd]. split; [assumption|]. split; [assumption|]. split; [assumption|].
        split.
        -- intros E. unfold make_message in E. apply (f_equal length) in E.
        rewrite length_drop in E. simpl in E. lia.
        -- exists []. split; [|rewrite Hw; reflexivity].
           unfold make_message. replace (length message - S size) with off by lia.
           reflexivity.
      * cbn [fst snd]. split; [assumption|]. split; [assumption|]. split; [assumption|].
        split; [reflexivity|].
        intros Hn. unfold no_send_failure in Hn. rewrite Htr in Hn.
        apply Forall_app in Hn as [_ Hn]. inversion Hn; subst. discriminate.
Qed.

Lemma trySendMessage_spec message w r w' :
  trySendMessage message w = (r, w') ->
  same_transport w w' /\ mSendQueue w' = mSendQueue w /\ extends w w' /\
  match r with
  | Ok SentAll => wire w' = wire w ++ message
  | Ok (Unsent rest) =>
      rest <> [] /\ exists part, message = part ++ rest /\ wire w' = wire w ++ part
  | Throw e => e = ConnectionClosed /\ ~ no_send_failure (trace w')
  end.
Proof.
  unfold trySendMessage. intros E.
  pose proof (trySendMessage_loop_spec (send_script (env w)) message 0
                (length message) w eq_refl) as H.
  cbv zeta in H. rewrite E in H. exact H.
Qed.

(** ** trySendQueue *)

Lemma trySendQueue_loop_spec queue w r w' :
  mSendQueue w = queue ->
  trySendQueue_loop queue w = (r, w') ->
  same_transport w w' /\ extends w w' /\
  match r with
  | Ok true => mSendQueue w' = [] /\ wire w' = wire w ++ concat queue
  | Ok false =>
      exists done part h t,
        queue = done ++ (part ++ h) :: t /\ h <> [] /\
        mSendQueue w' = h :: t /\ wire w' = wire w ++ concat done ++ part
  | Throw e => e = ConnectionClosed /\ ~ no_send_failure (trace w')
  end.
Proof.
  revert w r w'. induction queue as [|next queue IH]; intros w r w' Hq E.
  - simpl in E. injection E as <- <-. repeat split; try reflexivity; try assumption.
    now rewrite app_nil_r.
  - cbn [trySendQueue_loop] in E. unfold bind at 1 in E.
    destruct (trySendMessage next w) as [[[|rest]|e] w1] eqn:Em;
      apply trySendMessage_spec in Em; destruct Em as (Hf & Hq1 & Hext & Hres).
    + (* sent: pop and continue *)
      unfold bind at 1 in E. cbn [Queue_pop modify] in E.
      set (w2 := set_mSendQueue (tail (mSendQueue w1)) w1) in E.
      assert (Hq2 : mSendQueue w2 = queue).
      { unfold w2. simpl. now rewrite Hq1, Hq. }
      specialize (IH w2 r w' Hq2 E).
      destruct IH as (Hf2 & Hext2 & Hres2).
      assert (Hf12 : same_transport w w2).
      { destruct Hf as (?&?&?&?). repeat split; assumption. }
      assert (Hext12 : extends w w2).
      { destruct Hext as [x Hx]. exists x. exact Hx. }
      split; [etransitivity; eassumption|].
      split; [etransitivity; eassumption|].
      destruct r as [[|]|e].
      * destruct Hres2 as [Hempty Hw2]. split; [assumption|].
        rewrite Hw2. unfold w2. cbn [wire set_mSendQueue]. rewrite Hres.
        simpl. now rewrite app_assoc.
      * destruct Hres2 as (done & part & h & t & Hqueue & Hne & Hq' & Hw').
        exists (next :: done), part, h, t. repeat split; try assumption.
        -- simpl. now rewrite Hqueue.
        -- rewrite Hw'. unfold w2. cbn [wire set_mSendQueue]. rewrite Hres.
           simpl. now rewrite <- !app_assoc.
      * assumption.
    + (* would block: the head becomes the unsent suffix *)
      destruct Hres as (Hne & part & Hsplit & Hw1).
      unfold bind in E. cbn [Queue_exchange modify ret] in E.
      rewrite Hq1, Hq in E. injection E as <- <-.
      split; [destruct Hf as (?&?&?&?); repeat split; assumption|].
      split; [destruct Hext as [x Hx]; exists x; exact Hx|].
      exists [], part, rest, queue. repeat split; try assumption.
      simpl. now rewrite Hsplit.
    + injection E as <- <-. repeat split; try apply Hf; try apply Hres; assumption.
Qed.

Lemma trySendQueue_spec w r w' :
  trySendQueue w = (r, w') ->
  same_transport w w' /\ extends w w' /\
  match r with
  | Ok true => mSendQueue w' = [] /\ wire w' = wire w ++ concat (mSendQueue w)
  | Ok false =>
      exists done part h t,
        mSendQueue w = done ++ (part ++ h) :: t /\ h <> [] /\
        mSendQueue w' = h :: t /\ wire w' = wire w ++ concat done ++ part
  | Throw e => e = ConnectionClosed /\ ~ no_send_failure (trace w')
  end.
Proof. unfold trySendQueue. now apply trySendQueue_loop_spec. Qed.

(** ** The queue against the history of submitted messages *)

Lemma in_flight_start w : in_flight (wire w) (mSendQueue w) w.
Proof.
  unfold in_flight. destruct (mSendQueue w) as [|h t] eqn:E.
  - now rewrite app_nil_r.
  - exists [], []. simpl. now rewrite app_nil_r.
Qed.

Lemma in_flight_bytes base hist w :
  in_flight base hist w -> wire w ++ concat (mSendQueue w) = base ++ concat hist.
Proof.
  unfold in_flight. destruct (mSendQueue w) as [|h t].
  - intros ->. simpl. now rewrite app_nil_r.
  - intros (done & part & -> & ->). rewrite concat_app. simpl.
    now rewrite <- !app_assoc.
Qed.

Lemma in_flight_same base hist w w1 :
  mSendQueue w1 = mSendQueue w -> wire w1 = wire w ->
  in_flight base hist w -> in_flight base hist w1.
Proof. unfold in_flight. now intros -> ->. Qed.

Lemma in_flight_trySendQueue base hist w b w' :
  in_flight base hist w -> trySendQueue w = (Ok b, w') ->
  in_flight base hist w' /\ (b = true -> mSendQueue w' = []).
Proof.
  intros Hin E. pose proof (in_flight_bytes _ _ _ Hin) as Hb.
  apply trySendQueue_spec in E. destruct E as (_ & _ & Hres).
  destruct b.
  - destruct Hres as [Hq Hw]. split; [|auto].
    unfold in_flight. rewrite Hq, Hw. exact Hb.
  - split; [|discriminate].
    destruct Hres as (done & part & h & t & Hq & _ & Hq' & Hw').
    unfold in_flight in *. rewrite Hq'. rewrite Hq in Hin.
    destruct done as [|d done]; simpl in Hin.
    + destruct Hin as (done0 & part0 & -> & Hw).
      exists done0, (part0 ++ part). split.
      * now rewrite <- app_assoc.
      * rewrite Hw', Hw. simpl. now rewrite <- !app_assoc.
    + destruct Hin as (done0 & part0 & -> & Hw).
      exists (done0 ++ (part0 ++ d) :: done), part. split.
      * now rewrite <- app_assoc.
      * rewrite Hw', Hw. rewrite concat_app. simpl.
        now rewrite <- !app_assoc.
Qed.

Lemma in_flight_push base hist w m :
  in_flight base hist w ->
  in_flight base (hist ++ [m]) (set_mSendQueue (mSendQueue w ++ [m]) w).
Proof.
  unfold in_flight. simpl. destruct (mSendQueue w) as [|h t]; simpl.
  - intros ->. exists hist, []. now rewrite !app_nil_r.
  - intros (done & part & -> & ->). exists done, part. split; [|reflexivity].
    now rewrite <- app_assoc.
Qed.

(** ** outgoing and send *)

Lemma setPoll_spec d w :
  setPoll d w =
  (Ok tt, log (PollAdd (mSock w) (mk_Params d None ProcessCallback))
              (set_polls (<[mSock w := mk_Params d None ProcessCallback]> (polls w)) w)).
Proof. reflexivity. Qed.

Lemma outgoing_spec base hist m w r w' :
  in_flight base hist w ->
  outgoing m w = (r, w') ->
  mSock w' = mSock w /\ mState w' = mState w /\ fds w' = fds w /\ extends w w' /\
  match r with
  | Ok b => in_flight base (hist ++ [m]) w' /\ (b = true -> mSendQueue w' = [])
  | Throw e => e = ConnectionClosed /\ ~ no_send_failure (trace w')
  end.
Proof.
  intros Hin E. unfold outgoing in E. unfold bind at 1 in E.
  destruct (trySendQueue w) as [[[|]|e] w1] eqn:Eq.
  - (* the queue drained: try the message itself *)
    destruct (in_flight_trySendQueue _ _ _ _ _ Hin Eq) as [Hin1 Hempty].
    specialize (Hempty eq_refl).
    apply trySendQueue_spec in Eq. destruct Eq as ((Hs1 & Hst1 & Hp1 & Hf1) & Hext1 & _).
    unfold bind at 1 in E.
    destruct (trySendMessage m w1) as [[[|rest]|e] w2] eqn:Em;
      apply trySendMessage_spec in Em;
      destruct Em as ((Hs2 & Hst2 & Hp2 & Hf2) & Hq2 & Hext2 & Hres).
    + injection E as <- <-.
      split; [congruence|]. split; [congruence|]. split; [congruence|].
      split; [etransitivity; eassumption|].
      split; [|congruence].
      unfold in_flight in *. rewrite Hq2, Hempty in *.
      rewrite Hres, Hin1, concat_app. simpl. now rewrite app_nil_r, app_assoc.
    + unfold bind in E. cbn [Queue_push modify] in E. rewrite setPoll_spec in E.
      cbn [ret] in E. injection E as <- <-. cbn.
      split; [congruence|]. split; [congruence|]. split; [congruence|].
      split.
      { etransitivity; [eassumption|]. etransitivity; [eassumption|].
        eexists. reflexivity. }
      split; [|discriminate].
      destruct Hres as (_ & part & -> & Hw2).
      unfold in_flight in *. cbn. rewrite Hq2, Hempty in *. cbn.
      exists hist, part. split; [reflexivity|]. rewrite Hw2, Hin1.
      now rewrite app_assoc.
    + injection E as <- <-. destruct Hres as [-> Hfail].
      split; [congruence|]. split; [congruence|]. split; [congruence|].
      split; [etransitivity; eassumption|]. split; [reflexivity|assumption].
  - (* something is still queued: the message goes behind it *)
    destruct (in_flight_trySendQueue _ _ _ _ _ Hin Eq) as [Hin1 _].
    apply trySendQueue_spec in Eq. destruct Eq as ((Hs1 & Hst1 & Hp1 & Hf1) & Hext1 & _).
    unfold bind in E. cbn [Queue_push modify] in E. rewrite setPoll_spec in E.
    cbn [ret] in E. injection E as <- <-. cbn.
    split; [congruence|]. split; [congruence|]. split; [congruence|].
    split.
    { etransitivity; [eassumption|]. eexists. reflexivity. }
    split; [|discriminate].
    apply (in_flight_push _ _ _ m) in Hin1.
    revert Hin1. apply in_flight_same; reflexivity.
  - apply trySendQueue_spec in Eq. destruct Eq as ((Hs1 & Hst1 & Hp1 & Hf1) & Hext1 & Hres).
    injection E as <- <-. destruct Hres as [-> Hfail]. repeat split; assumption.
Qed.

Lemma send_not_connected m w :
  mState w <> Connected -> send m w = (Throw ConnectionIsNotOpen, w).
Proof.
  intros H. unfold send, bind, state, get. cbn.
  case_decide; [reflexivity|contradiction].
Qed.

Lemma send_connected m w :
  mState w = Connected ->
  send m w = match m with None => trySendQueue w | Some x => outgoing x w end.
Proof.
  intros H. unfold send, bind, state, get. cbn.
  repeat case_decide; try congruence. now destruct m.
Qed.

Lemma send_spec base hist m w r w' :
  mState w = Connected ->
  in_flight base hist w ->
  send m w = (r, w') ->
  mSock w' = mSock w /\ mState w' = mState w /\ fds w' = fds w /\ extends w w' /\
  match r with
  | Ok b => in_flight base (hist ++ payloads [m]) w' /\ (b = true -> mSendQueue w' = [])
  | Throw e => e = ConnectionClosed /\ ~ no_send_failure (trace w')
  end.
Proof.
  intros Hc Hin E. rewrite send_connected in E by assumption.
  destruct m as [x|].
  - simpl. now apply (outgoing_spec base hist x w r w').
  - simpl. rewrite app_nil_r.
    pose proof (trySendQueue_spec _ _ _ E) as ((Hs & Hst & Hp & Hf) & Hext & Hres).
    repeat split; try assumption.
    destruct r as [b|e]; [|assumption].
    now apply (in_flight_trySendQueue base hist w b w').
Qed.

(** ** A kernel that keeps accepting *)

Lemma trySendMessage_loop_accepting script message off size w :
  Forall accepting script ->
  size <= length script ->
  send_script (env w) = script ->
  exists w',
    trySendMessage_loop script message off size w = (Ok SentAll, w') /\
    Forall accepting (send_script (env w')) /\
    length script <= length (send_script (env w')) + size /\
    mSendQueue w' = mSendQueue w.
Proof.
  revert off size w. induction script as [|a script IH]; intros off size w Ha Hlen Hs.
  - destruct size; [|simpl in Hlen; lia].
    exists w. rewrite Hs. repeat split; [constructor|simpl; lia].
  - destruct size as [|size].
    + exists w. rewrite Hs. repeat split; [assumption|lia].
    + apply Forall_cons in Ha as [Ha Hrest].
      destruct a as [[|k]| |]; try contradiction.
      cbn [trySendMessage_loop].
      set (offered := take (S size) (drop off message)).
      pose proof (sys_send_frame (SendAccepts (S k)) script offered w)
        as (_ & Hq & Henv & _).
      destruct (IH (off + Nat.min (S k) (S size)) (S size - Nat.min (S k) (S size))
                  (sys_send (SendAccepts (S k)) script offered w) Hrest)
        as (w' & E & Hacc & Hl & Hq').
      * simpl in Hlen. lia.
      * exact Henv.
      * exists w'. split; [exact E|]. split; [exact Hacc|].
        split; [simpl; lia|congruence].
Qed.

Lemma trySendQueue_loop_accepting queue w :
  Forall accepting (send_script (env w)) ->
  length (concat queue) <= length (send_script (env w)) ->
  exists w', trySendQueue_loop queue w = (Ok true, w').
Proof.
  revert w. induction queue as [|next queue IH]; intros w Ha Hlen.
  - exists w. reflexivity.
  - simpl in Hlen. rewrite length_app in Hlen.
    destruct (trySendMessage_loop_accepting (send_script (env w)) next 0
                (length next) w Ha) as (w1 & E & Ha1 & Hl1 & _); [lia|reflexivity|].
    cbn [trySendQueue_loop]. unfold bind at 1.
    change (trySendMessage next w) with
      (trySendMessage_loop (send_script (env w)) next 0 (length next) w).
    rewrite E. unfold bind at 1. cbn [Queue_pop modify].
    apply IH; cbn; [exact Ha1|lia].
Qed.

(** Against a kernel that takes at least one byte per call, for at least
    as many calls as there are bytes queued, a flush writes out the whole
    queue. *)
Lemma flush_drains w :
  Forall accepting (send_script (env w)) ->
  length (concat (mSendQueue w)) <= length (send_script (env w)) ->
  exists w',
    trySendQueue w = (Ok true, w') /\
    mSendQueue w' = [] /\ wire w' = wire w ++ concat (mSendQueue w).
Proof.
  intros Ha Hlen.
  destruct (trySendQueue_loop_accepting (mSendQueue w) w Ha Hlen) as (w' & E).
  exists w'. split; [exact E|].
  now destruct (trySendQueue_spec w _ _ E) as (_ & _ & Hres).
Qed.

(** ** Sequences of send() calls *)

Lemma payloads_cons m msgs : payloads (m :: msgs) = payloads [m] ++ payloads msgs.
Proof. unfold payloads. simpl. now rewrite app_nil_r. Qed.

Lemma run_sends base hist msgs w outs w' :
  mState w = Connected ->
  in_flight base hist w ->
  run (map OpSend msgs) w = (outs, w') ->
  Forall returned outs ->
  in_flight base (hist ++ payloads msgs) w' /\
  mState w' = Connected /\ mSock w' = mSock w /\ fds w' = fds w /\
  (last outs = Some (Returned (Some true)) -> mSendQueue w' = []).
Proof.
  revert hist w outs. induction msgs as [|m msgs IH]; intros hist w outs Hc Hin E Hret.
  - simpl in E. injection E as <- <-. simpl. rewrite app_nil_r.
    repeat split; try assumption. discriminate.
  - cbn [map run step] in E.
    destruct (send m w) as [r w1] eqn:Es.
    destruct (run (map OpSend msgs) w1) as [os w2] eqn:Er.
    injection E as <- <-.
    apply Forall_cons in Hret as [Hr Hret].
    pose proof (send_spec base hist m w r w1 Hc Hin Es) as (Hs & Hst & Hf & _ & Hres).
    destruct r as [b|e]; [|contradiction].
    destruct Hres as [Hin1 Hb].
    assert (Hc1 : mState w1 = Connected) by congruence.
    destruct (IH _ _ _ Hc1 Hin1 Er Hret) as (Hin2 & Hc2 & Hs2 & Hf2 & Hlast).
    rewrite payloads_cons, app_assoc.
    split; [assumption|]. split; [assumption|].
    split; [congruence|]. split; [congruence|].
    destruct msgs as [|m' msgs].
    + simpl in Er. injection Er as <- <-. simpl. intros [= ->]. auto.
    + intros Hl. apply Hlast.
      cbn [map run] in Er.
      destruct (step (OpSend m') w1) as [o1 w3].
      destruct (run (map OpSend msgs) w3) as [os' w4].
      injection Er as <- <-. exact Hl.
Qed.

(** C4: send() on a transport that is not Connected throws "Connection is
    not open" to the caller and leaves the whole world as it was: no system
    call is made (the trace is unchanged) and the send queue is unchanged. *)
Theorem send_when_not_connected (message : message_ptr) (w : World) :
  mState w <> Connected ->
  send message w = (Throw ConnectionIsNotOpen, w) /\
  trace (snd (send message w)) = trace w /\
  mSendQueue (snd (send message w)) = mSendQueue w.
Proof.
  intros H. rewrite (send_not_connected message w H). repeat split.
Qed.


Lemma send_when_not_connected_witness :
  mState (active_transport (mk_Env None [] [] [] [])) <> Connected /\
  send (Some ["a"%byte]) (active_transport (mk_Env None [] [] [] [])) =
    (Throw ConnectionIsNotOpen, active_transport (mk_Env None [] [] [] [])).
Proof.
  split; [discriminate|].
  apply (send_when_not_connected (Some ["a"%byte])
           (active_transport (mk_Env None [] [] [] []))).
  discriminate.
Defined.


(** ** Relations kept by every step of a computation *)

Section Preserves.
Context (R : World -> World -> Prop) `{!PreOrder R}.

Lemma preserves_ret {A} (a : A) : preserves R (ret a).
Proof. intros w. reflexivity. Qed.

Lemma preserves_throw {A} e : preserves R (@throw A e).
Proof. intros w. reflexivity. Qed.

Lemma preserves_get {A} (f : World -> A) : preserves R (get f).
Proof. intros w. reflexivity. Qed.

Lemma preserves_bind {A B} (m : M A) (k : A -> M B) :
  preserves R m -> (forall a, preserves R (k a)) -> preserves R (bind m k).
Proof.
  intros Hm Hk w. unfold bind. specialize (Hm w).
  destruct (m w) as [[a|e] w1]; simpl in *; [|assumption].
  etransitivity; [exact Hm|apply Hk].
Qed.

Lemma preserves_try_catch {A} (m : M A) (h : runtime_error -> M A) :
  preserves R m -> (forall e, preserves R (h e)) -> preserves R (try_catch m h).
Proof.
  intros Hm Hh w. unfold try_catch. specialize (Hm w).
  destruct (m w) as [[a|e] w1]; simpl in *; [assumption|].
  etransitivity; [exact Hm|apply Hh].
Qed.

Lemma preserves_modify (f : World -> World) :
  (forall w, R w (f w)) -> preserves R (modify f).
Proof. intros H w. apply H. Qed.
End Preserves.

Create HintDb pres.

(** Walks through the binds, handlers and case distinctions of a
    computation; what remains are its primitive steps. *)
Ltac preserves_walk :=
  repeat first
    [ assumption
    | solve [auto with pres]
    | solve [apply preserves_ret; exact _]
    | solve [apply preserves_throw; exact _]
    | solve [apply preserves_get; exact _]
    | apply preserves_bind; [exact _| |intros ?]
    | apply preserves_try_catch; [exact _| |intros ?]
    | match goal with
      | |- preserves _ (if ?c then _ else _) => destruct c
      | |- preserves _ (match ?x with _ => _ end) => destruct x
      end ].

(** ** What does not touch the queue or the wire *)

#[local] Instance quiet_preorder : PreOrder quiet.
Proof.
  split.
  - intros w. repeat split. reflexivity.
  - intros w1 w2 w3 (?&?&?) (?&?&?). repeat split; try congruence.
    etransitivity; eassumption.
Qed.

Ltac quiet_prim :=
  intros w; unfold quiet, extends; simpl; repeat split;
  try reflexivity; try (eexists; reflexivity);
  try (exists []; now rewrite app_nil_r).

Lemma quiet_log a : preserves quiet (modify (log a)).
Proof. quiet_prim. Qed.
Lemma quiet_changeState s : preserves quiet (changeState s).
Proof. quiet_prim. Qed.
Lemma quiet_recv m : preserves quiet (recv m).
Proof. quiet_prim. Qed.
Lemma quiet_add sock params : preserves quiet (PollService_add sock params).
Proof. quiet_prim. Qed.
Lemma quiet_remove sock : preserves quiet (PollService_remove sock).
Proof. quiet_prim. Qed.
Lemma quiet_closesocket sock : preserves quiet (closesocket sock).
Proof. quiet_prim. Qed.
Lemma quiet_set_mSock sock : preserves quiet (modify (set_mSock sock)).
Proof. quiet_prim. Qed.
Lemma quiet_freeaddrinfo : preserves quiet freeaddrinfo.
Proof. quiet_prim. Qed.
Lemma quiet_next_prepare_answer : preserves quiet next_prepare_answer.
Proof. intros w. unfold next_prepare_answer. destruct (prepare_script (env w)); revert w; quiet_prim. Qed.
Lemma quiet_sys_socket family a : preserves quiet (sys_socket family a).
Proof. intros w. unfold sys_socket. case_decide; revert w; quiet_prim. Qed.
Lemma quiet_sys_ioctl sock a : preserves quiet (sys_ioctl sock a).
Proof. quiet_prim. Qed.
Lemma quiet_sys_connect sock addr a : preserves quiet (sys_connect sock addr a).
Proof. quiet_prim. Qed.
Lemma quiet_sys_getsockopt : preserves quiet sys_getsockopt.
Proof. intros w. unfold sys_getsockopt. destruct (sockopt_script (env w)); revert w; quiet_prim. Qed.
Lemma quiet_sys_getaddrinfo : preserves quiet sys_getaddrinfo.
Proof. quiet_prim. Qed.
Lemma quiet_sys_recv a rest : preserves quiet (sys_recv a rest).
Proof. quiet_prim. Qed.

#[local] Hint Resolve quiet_log quiet_changeState quiet_recv quiet_add quiet_remove
  quiet_closesocket quiet_set_mSock quiet_freeaddrinfo quiet_next_prepare_answer
  quiet_sys_socket quiet_sys_ioctl quiet_sys_connect quiet_sys_getsockopt
  quiet_sys_getaddrinfo quiet_sys_recv : pres.

Lemma quiet_setPoll d : preserves quiet (setPoll d).
Proof. unfold setPoll. preserves_walk; auto with pres. Qed.
Lemma quiet_incoming m : preserves quiet (incoming m).
Proof. unfold incoming. preserves_walk; auto with pres. Qed.
Lemma quiet_close : preserves quiet close.
Proof. unfold close. preserves_walk; auto with pres. Qed.
#[local] Hint Resolve quiet_setPoll quiet_incoming quiet_close : pres.

Lemma quiet_stop b : preserves quiet (stop b).
Proof. unfold stop. preserves_walk; auto with pres. Qed.
Lemma quiet_prepare addr : preserves quiet (prepare addr).
Proof. unfold prepare. preserves_walk; auto with pres. Qed.
#[local] Hint Resolve quiet_stop quiet_prepare : pres.

Lemma quiet_attempt result ai : preserves quiet (attempt result ai).
Proof.
  induction ai as [|a ai IH]; cbn [attempt]; preserves_walk; auto with pres.
Qed.
#[local] Hint Resolve quiet_attempt : pres.

Lemma quiet_connect_callback result ai event :
  preserves quiet (connect_callback result ai event).
Proof. unfold connect_callback. preserves_walk; auto with pres. Qed.
Lemma quiet_connect : preserves quiet connect.
Proof. unfold connect. preserves_walk; auto with pres. Qed.
#[local] Hint Resolve quiet_connect_callback quiet_connect : pres.

Lemma quiet_start : preserves quiet start.
Proof. unfold start. preserves_walk; auto with pres. Qed.
Lemma quiet_disconnect : preserves quiet disconnect.
Proof. unfold disconnect. preserves_walk; auto with pres. Qed.

Lemma quiet_process_In_loop script : preserves quiet (process_In_loop script).
Proof.
  induction script as [|a script IH]; cbn [process_In_loop].
  - preserves_walk. quiet_prim.
  - preserves_walk; auto with pres.
Qed.
#[local] Hint Resolve quiet_start quiet_disconnect quiet_process_In_loop : pres.

(** ** The queue invariant along a run *)

Lemma quiet_in_flight base hist w w' :
  quiet w w' -> in_flight base hist w -> in_flight base hist w'.
Proof. intros (Hq & Hw & _). now apply in_flight_same. Qed.

Lemma process_in_flight base hist event w r w' :
  in_flight base hist w ->
  process event w = (r, w') ->
  no_send_failure (trace w') ->
  in_flight base hist w' /\ extends w w'.
Proof.
  intros Hin E Hn. destruct event.
  - (* In *)
    assert (Hq : preserves quiet (process EvIn)).
    { unfold process, process_try, process_switch. preserves_walk.
      intros w0. apply quiet_process_In_loop. }
    specialize (Hq w). rewrite E in Hq. split; [now apply (quiet_in_flight _ _ w)|apply Hq].
  - (* Out *)
    unfold process, process_try, process_switch in E. unfold bind at 1 in E.
    unfold try_catch in E. unfold bind at 1 in E.
    destruct (trySendQueue w) as [[b|e] w1] eqn:Eq.
    + destruct (in_flight_trySendQueue _ _ _ _ _ Hin Eq) as [Hin1 _].
      apply trySendQueue_spec in Eq. destruct Eq as (_ & Hext1 & _).
      assert (Hq : quiet w1 w').
      { destruct b; cbn in E; injection E as <- <-; repeat split;
          try reflexivity. eexists; reflexivity. }
      split; [now apply (quiet_in_flight _ _ w1)|].
      etransitivity; [exact Hext1|apply Hq].
    + apply trySendQueue_spec in Eq. destruct Eq as (_ & Hext1 & _ & Hfail).
      exfalso. apply Hfail.
      cbn [ret] in E.
      pose proof (quiet_disconnect w1) as (_ & _ & Hext2).
      change (disconnect w1 = (r, w')) in E. rewrite E in Hext2.
      now apply (no_send_failure_extends w1 w').
  - (* Error *)
    assert (Hq : preserves quiet (process EvError)).
    { unfold process, process_try, process_switch. preserves_walk. }
    specialize (Hq w). rewrite E in Hq. split; [now apply (quiet_in_flight _ _ w)|apply Hq].
  - (* Timeout *)
    assert (Hq : preserves quiet (process EvTimeout)).
    { unfold process, process_try, process_switch. preserves_walk. }
    specialize (Hq w). rewrite E in Hq. split; [now apply (quiet_in_flight _ _ w)|apply Hq].
Qed.

Lemma step_in_flight base hist op w o w' :
  in_flight base hist w ->
  step op w = (o, w') ->
  no_send_failure (trace w') ->
  in_flight base (hist ++ accepted [op] [o]) w' /\ extends w w'.
Proof.
  intros Hin E Hn. destruct op as [|b|m|sock event]; cbn [step] in E.
  - pose proof (quiet_start w) as Hq. destruct (start w) as [r w1].
    injection E as <- <-. simpl. rewrite app_nil_r.
    split; [now apply (quiet_in_flight _ _ w)|apply Hq].
  - pose proof (quiet_stop b w) as Hq. destruct (stop b w) as [r w1].
    injection E as <- <-. simpl. rewrite app_nil_r.
    split; [now apply (quiet_in_flight _ _ w)|apply Hq].
  - destruct (decide (mState w = Connected)) as [Hc|Hc].
    + destruct (send m w) as [r w1] eqn:Es. injection E as <- <-.
      pose proof (send_spec base hist m w r w1 Hc Hin Es) as (_ & _ & _ & Hext & Hres).
      split; [|assumption].
      destruct r as [b|e].
      * destruct Hres as [Hin1 _]. destruct m; simpl in *; assumption.
      * destruct Hres as [_ Hfail]. contradiction.
    + rewrite send_not_connected in E by assumption. injection E as <- <-.
      destruct m; simpl; rewrite app_nil_r; split; try assumption; reflexivity.
  - unfold PollService_deliver in E. simpl. rewrite app_nil_r.
    destruct (polls w !! sock) as [params|].
    + destruct (callback params) as [result ai|]; cbn [run_callback] in E.
      * pose proof (quiet_connect_callback result ai event w) as Hq.
        destruct (connect_callback result ai event w) as [r w1].
        injection E as <- <-.
        split; [now apply (quiet_in_flight _ _ w)|apply Hq].
      * destruct (process event w) as [r w1] eqn:Ep. injection E as <- <-.
        now apply (process_in_flight base hist event w r w1).
    + injection E as <- <-. split; [assumption|reflexivity].
Qed.

Lemma accepted_cons op o ops outs :
  accepted (op :: ops) (o :: outs) = accepted [op] [o] ++ accepted ops outs.
Proof.
  destruct op as [| |[m|]|]; destruct o; simpl; try reflexivity;
    destruct ops, outs; reflexivity.
Qed.

Lemma run_no_send_failure ops w outs w' :
  run ops w = (outs, w') ->
  no_send_failure (trace w') -> no_send_failure (trace w).
Proof.
  revert w outs. induction ops as [|op ops IH]; intros w outs E Hn.
  - simpl in E. now injection E as <- <-.
  - cbn [run] in E. destruct (step op w) as [o w1] eqn:Es.
    destruct (run ops w1) as [os w2] eqn:Er. injection E as <- <-.
    specialize (IH _ _ Er Hn).
    destruct (step_in_flight _ _ _ _ _ _ (in_flight_start w) Es IH) as [_ Hext].
    now apply (no_send_failure_extends w w1).
Qed.



(** ** Flushing with a null or an empty message *)

Lemma trySendMessage_empty w : trySendMessage [] w = (Ok SentAll, w).
Proof. unfold trySendMessage. now destruct (send_script (env w)). Qed.

Lemma trySendQueue_drained_to w b w' :
  trySendQueue w = (Ok b, w') ->
  polls w' = polls w /\ mSock w' = mSock w /\
  exists written,
    drained_to (mSendQueue w) (mSendQueue w') written /\
    wire w' = wire w ++ written /\ (b = true <-> mSendQueue w' = []).
Proof.
  intros E. apply trySendQueue_spec in E. destruct E as ((Hs & _ & Hp & _) & _ & Hres).
  split; [exact Hp|]. split; [exact Hs|].
  destruct b.
  - destruct Hres as [Hq Hw]. exists (concat (mSendQueue w)).
    split; [left; split; [assumption|reflexivity]|]. split; [assumption|]. now split.
  - destruct Hres as (done & part & h & t & Hq & Hne & Hq' & Hw).
    exists (concat done ++ part). split.
    + right. exists done, part, h, t. repeat split; assumption.
    + split; [assumption|]. rewrite Hq'. split; discriminate.
Qed.

(** C9, as amended: on a Connected transport send() with a null message
    only flushes: the queue is drained in FIFO order, no entry is added, and
    the value returned tells whether the queue drained completely.  With a
    non-null empty message the flush and the returned value are the same,
    but when the queue does not drain completely the empty message is
    appended to it as a new entry and the registration is switched to
    Both. *)
Theorem send_null_or_empty_flushes (message : message_ptr) (w w' : World) (b : bool) :
  mState w = Connected ->
  message = None \/ message = Some [] ->
  send message w = (Ok b, w') ->
  exists q written,
    drained_to (mSendQueue w) q written /\
    wire w' = wire w ++ written /\
    (b = true <-> q = []) /\
    mSendQueue w' = match message with
                    | None => q
                    | Some _ => if b then q else q ++ [[]]
                    end /\
    polls w' = match message with
               | None => polls w
               | Some _ =>
                 if b then polls w
                 else <[mSock w := mk_Params DirBoth None ProcessCallback]> (polls w)
               end.
Proof.
  intros Hc Hm E. rewrite send_connected in E by assumption.
  destruct Hm as [-> | ->].
  - destruct (trySendQueue_drained_to _ _ _ E) as (Hp & _ & written & Hd & Hw & Hb).
    exists (mSendQueue w'), written. repeat split; try assumption; apply Hb.
  - unfold outgoing in E. unfold bind at 1 in E.
    destruct (trySendQueue w) as [[[|]|e] w1] eqn:Eq; [| |discriminate].
    + rewrite (bind_ok _ _ _ _ _ (trySendMessage_empty w1)) in E.
      injection E as <- <-.
      destruct (trySendQueue_drained_to _ _ _ Eq) as (Hp & _ & written & Hd & Hw & Hb).
      exists (mSendQueue w1), written. repeat split; try assumption; apply Hb.
    + unfold bind in E. cbn in E. injection E as <- <-.
      destruct (trySendQueue_drained_to _ _ _ Eq) as (Hp & Hs & written & Hd & Hw & Hb).
      exists (mSendQueue w1), written. cbn. rewrite Hp, Hs.
      repeat split; try assumption; apply Hb.
Qed.

Lemma send_null_or_empty_flushes_witness :
  mState example_backlog = Connected /\
  exists q written,
    drained_to (mSendQueue example_backlog) q written /\
    wire (snd (send None example_backlog)) = wire example_backlog ++ written /\
    mSendQueue (snd (send None example_backlog)) = q.
Proof.
  split; [reflexivity|].
  destruct (send_null_or_empty_flushes None example_backlog
              (snd (send None example_backlog)) false eq_refl (or_introl eq_refl) eq_refl)
    as (q & written & Hd & Hw & _ & Hq & _).
  exists q, written. repeat split; assumption.
Defined.

(** C9 as stated fails for the empty message: with one message queued and
    the socket buffer full, send() with a non-null empty message returns
    false and leaves two entries in the queue. *)
Lemma send_empty_message_adds_an_entry :
  mState example_backlog = Connected /\
  mSendQueue example_backlog = [["a"%byte]] /\
  fst (send (Some []) example_backlog) = Ok false /\
  mSendQueue (snd (send (Some []) example_backlog)) = [["a"%byte]; []] /\
  ~ (forall (message : message_ptr) (w : World),
       mState w = Connected ->
       message = None \/ message = Some [] ->
       length (mSendQueue (snd (send message w))) <= length (mSendQueue w)).
Proof.
  repeat split.
  intros H.
  specialize (H (Some []) example_backlog eq_refl (or_intror eq_refl)).
  vm_compute in H. lia.
Qed.

(** ** Steps that keep the handle and the descriptors *)

Lemma open_after_snoc tr a :
  open_after (tr ++ [a]) = kernel_step (open_after tr) a.
Proof. unfold open_after. now rewrite fold_left_app. Qed.

Lemma registered_after_snoc tr a :
  registered_after (tr ++ [a]) = poll_step (registered_after tr) a.
Proof. unfold registered_after. now rewrite fold_left_app. Qed.

#[local] Instance tame_preorder : PreOrder tame.
Proof.
  split.
  - intros w. split; [reflexivity|]. split; [reflexivity|]. split; [|split].
    + exists []. split; [now rewrite app_nil_r|constructor].
    + set_solver.
    + tauto.
  - intros w1 w2 w3 (Hs1 & Hf1 & (e1 & Ht1 & Ha1) & Hd1 & Hk1)
                    (Hs2 & Hf2 & (e2 & Ht2 & Ha2) & Hd2 & Hk2).
    split; [congruence|]. split; [congruence|]. split; [|split].
    + exists (e1 ++ e2). split; [now rewrite Ht2, Ht1, app_assoc|].
      now apply Forall_app.
    + rewrite Hs1 in Hd2. set_solver.
    + tauto.
Qed.

Ltac tame_prim :=
  intros w; unfold tame, tracked; simpl;
  split; [reflexivity|]; split; [reflexivity|]; split; [|split];
  [ eexists; split;
    [first [reflexivity | symmetry; apply app_nil_r]|repeat constructor]
  | rewrite ?dom_insert_L, ?dom_delete_L; set_solver
  | intros [? ?]; rewrite ?open_after_snoc, ?registered_after_snoc; simpl;
    rewrite ?dom_insert_L, ?dom_delete_L; split; congruence ].

Lemma tame_log a : inert_action a -> preserves tame (modify (log a)).
Proof. intros Ha. destruct a; try contradiction; tame_prim. Qed.
Lemma tame_changeState s : preserves tame (changeState s).
Proof. tame_prim. Qed.
Lemma tame_recv m : preserves tame (recv m).
Proof. tame_prim. Qed.
Lemma tame_remove sock : preserves tame (PollService_remove sock).
Proof. tame_prim. Qed.
Lemma tame_setPoll d : preserves tame (setPoll d).
Proof. tame_prim. Qed.
Lemma tame_Queue_push m : preserves tame (Queue_push m).
Proof. tame_prim. Qed.
Lemma tame_Queue_pop : preserves tame Queue_pop.
Proof. tame_prim. Qed.
Lemma tame_Queue_exchange m : preserves tame (Queue_exchange m).
Proof. intros w. unfold Queue_exchange, modify. destruct (mSendQueue w); revert w; tame_prim. Qed.
Lemma tame_sys_recv a rest : preserves tame (sys_recv a rest).
Proof. tame_prim. Qed.

#[local] Hint Resolve tame_changeState tame_recv tame_remove tame_setPoll
  tame_Queue_push tame_Queue_pop tame_Queue_exchange tame_sys_recv : pres.

Lemma tame_sys_send a rest offered w : tame w (sys_send a rest offered w).
Proof. destruct a; revert w; tame_prim. Qed.

Lemma tame_trySendMessage_loop script message off size w :
  tame w (snd (trySendMessage_loop script message off size w)).
Proof.
  revert off size w. induction script as [|a script IH]; intros off size w.
  - destruct size; simpl; [reflexivity|]. revert w. tame_prim.
  - destruct size; [reflexivity|]. cbn [trySendMessage_loop].
    pose proof (tame_sys_send a script (take (S size) (drop off message)) w) as H.
    destruct a; cbn [snd]; try assumption.
    etransitivity; [exact H|apply IH].
Qed.

Lemma tame_trySendMessage message : preserves tame (trySendMessage message).
Proof. intros w. apply tame_trySendMessage_loop. Qed.
#[local] Hint Resolve tame_trySendMessage : pres.

Lemma tame_trySendQueue_loop queue : preserves tame (trySendQueue_loop queue).
Proof. induction queue as [|m queue IH]; cbn [trySendQueue_loop]; preserves_walk. Qed.

Lemma tame_trySendQueue : preserves tame trySendQueue.
Proof. intros w. apply tame_trySendQueue_loop. Qed.
#[local] Hint Resolve tame_trySendQueue : pres.

Lemma tame_outgoing m : preserves tame (outgoing m).
Proof. unfold outgoing. preserves_walk. Qed.
#[local] Hint Resolve tame_outgoing : pres.

Lemma tame_send m : preserves tame (send m).
Proof. unfold send, state. preserves_walk. Qed.

Lemma tame_incoming m : preserves tame (incoming m).
Proof. unfold incoming. preserves_walk. Qed.
#[local] Hint Resolve tame_send tame_incoming : pres.

Lemma tame_process_In_loop script : preserves tame (process_In_loop script).
Proof.
  induction script as [|a script IH]; cbn [process_In_loop].
  - preserves_walk. tame_prim.
  - preserves_walk.
Qed.
#[local] Hint Resolve tame_process_In_loop : pres.

Lemma tame_process_switch event : preserves tame (process_switch event).
Proof.
  unfold process_switch. destruct event; preserves_walk.
  intros w. apply tame_process_In_loop.
Qed.
#[local] Hint Resolve tame_process_switch : pres.

Lemma tame_process_try event : preserves tame (process_try event).
Proof. unfold process_try. preserves_walk. Qed.
Lemma tame_disconnect : preserves tame disconnect.
Proof. unfold disconnect. preserves_walk. Qed.
#[local] Hint Resolve tame_process_try tame_disconnect : pres.

Lemma tame_process event : preserves tame (process event).
Proof. unfold process. preserves_walk. Qed.
#[local] Hint Resolve tame_process : pres.

(** ** process *)

Lemma disconnect_eq w :
  disconnect w =
  (Ok tt, log (Recv None)
            (log (ChangeState Disconnected)
               (set_mState Disconnected
                  (log (PollRemove (mSock w))
                     (set_polls (delete (mSock w) (polls w)) w))))).
Proof. reflexivity. Qed.

Lemma take_bufferSize_nonempty (d : list byte) : d <> [] -> take bufferSize d <> [].
Proof. destruct d; [congruence|]. intros _. unfold bufferSize. simpl. discriminate. Qed.

Lemma take_bufferSize_length (d : list byte) : length (take bufferSize d) <= bufferSize.
Proof. rewrite length_take. lia. Qed.

(** The read loop over a script that starts with chunks of data and then
    has an answer that ends the loop. *)
Lemma process_In_loop_spec datas ending rest w :
  Forall (fun d => d <> []) datas ->
  ends_read ending ->
  exists w1,
    process_In_loop (map RecvData datas ++ ending :: rest) w =
      (Ok (match ending with RecvWouldBlock => Return | _ => Break end), w1) /\
    mSock w1 = mSock w /\ mState w1 = mState w /\ polls w1 = polls w /\
    fds w1 = fds w /\ mSendQueue w1 = mSendQueue w /\ wire w1 = wire w /\
    recv_script (env w1) = rest /\
    trace w1 = trace w ++ flat_map (chunk_actions (mSock w)) datas
                       ++ [SysRecv (mSock w) bufferSize ending].
Proof.
  intros Hd He. revert w. induction Hd as [|d datas Hne Hd IH]; intros w.
  - cbn [map app process_In_loop flat_map].
    eexists. split.
    + unfold bind, sys_recv, modify.
      destruct ending as [data| |errno]; cbn in He |- *; [subst data|..]; reflexivity.
    + destruct ending; repeat split.
  - cbn [map app process_In_loop flat_map].
    unfold bind at 1, sys_recv at 1, modify at 1.
    pose proof (take_bufferSize_nonempty d Hne) as Ht.
    destruct (take bufferSize d) as [|b bs] eqn:Etake; [congruence|].
    set (w2 := log (Recv (Some (b :: bs)))
                 (log (SysRecv (mSock w) bufferSize (RecvData d))
                    (set_env (set_recv_script (map RecvData datas ++ ending :: rest) (env w)) w))).
    destruct (IH w2) as (w1 & E & Hs & Hst & Hp & Hf & Hq & Hw & Hr & Htr).
    exists w1. split; [exact E|].
    repeat split; try assumption.
    rewrite Htr. unfold w2, chunk_actions, make_message.
    cbn [trace log set_env mSock app]. rewrite Etake.
    rewrite <- !app_assoc. reflexivity.
Qed.

Lemma process_break event w w1 :
  process_try event w = (Ok Break, w1) -> process event w = disconnect w1.
Proof. intros E. unfold process. now rewrite (bind_ok _ _ _ _ _ E). Qed.

Lemma process_return event w w1 :
  process_try event w = (Ok Return, w1) -> process event w = (Ok tt, w1).
Proof. intros E. unfold process. now rewrite (bind_ok _ _ _ _ _ E). Qed.

Lemma process_try_In datas ending rest w :
  Forall (fun d => d <> []) datas ->
  ends_read ending ->
  recv_script (env w) = map RecvData datas ++ ending :: rest ->
  exists w1,
    process_try EvIn w =
      (Ok (match ending with RecvWouldBlock => Return | _ => Break end), w1) /\
    mSock w1 = mSock w /\ mState w1 = mState w /\ polls w1 = polls w /\
    fds w1 = fds w /\ mSendQueue w1 = mSendQueue w /\ wire w1 = wire w /\
    recv_script (env w1) = rest /\
    trace w1 = trace w ++ flat_map (chunk_actions (mSock w)) datas
                       ++ [SysRecv (mSock w) bufferSize ending].
Proof.
  intros Hd He Hs.
  destruct (process_In_loop_spec datas ending rest w Hd He) as (w1 & E & H).
  exists w1. split; [|exact H].
  unfold process_try, try_catch, process_switch. rewrite Hs, E. reflexivity.
Qed.

(** C6: on an In event process() reads with a 4096-byte buffer until the
    kernel stops handing over data.  Every read of positive length is
    passed upward at once as one message of its own, cut to the buffer, in
    the order read.  If the loop ends on "would block", nothing else
    happens; if it ends on a read of length zero (or on a hard error), the
    registration is removed, the state becomes Disconnected and exactly one
    end-of-stream notification follows. *)
Theorem process_In_reads_until_block_or_close (datas : list message)
    (ending : recv_answer) (rest : list recv_answer) (w : World) :
  Forall (fun d => d <> []) datas ->
  ends_read ending ->
  recv_script (env w) = map RecvData datas ++ ending :: rest ->
  exists w',
    process EvIn w = (Ok tt, w') /\
    bufferSize = 4096 /\
    Forall (fun d => 0 < length (take bufferSize d) <= bufferSize) datas /\
    trace w' =
      trace w ++ flat_map (chunk_actions (mSock w)) datas
              ++ SysRecv (mSock w) bufferSize ending
              :: match ending with
                 | RecvWouldBlock => []
                 | _ => disconnect_actions (mSock w)
                 end /\
    mState w' = match ending with
                | RecvWouldBlock => mState w
                | _ => Disconnected
                end /\
    polls w' = match ending with
               | RecvWouldBlock => polls w
               | _ => delete (mSock w) (polls w)
               end /\
    mSock w' = mSock w /\ fds w' = fds w /\ recv_script (env w') = rest.
Proof.
  intros Hd He Hs.
  destruct (process_try_In datas ending rest w Hd He Hs)
    as (w1 & E & Hsock & Hst & Hp & Hf & Hq & Hw & Hr & Htr).
  assert (Hlen : Forall (fun d => 0 < length (take bufferSize d) <= bufferSize) datas).
  { eapply Forall_impl; [exact Hd|]. intros d Hne. simpl.
    split; [|apply take_bufferSize_length].
    apply take_bufferSize_nonempty in Hne.
    destruct (take bufferSize d); [congruence|simpl; lia]. }
  assert (Hbreak : forall flow, flow = Break ->
            process_try EvIn w = (Ok flow, w1) ->
            exists w', process EvIn w = (Ok tt, w') /\
              trace w' = trace w ++ flat_map (chunk_actions (mSock w)) datas
                ++ SysRecv (mSock w) bufferSize ending :: disconnect_actions (mSock w) /\
              mState w' = Disconnected /\ polls w' = delete (mSock w) (polls w) /\
              mSock w' = mSock w /\ fds w' = fds w /\ recv_script (env w') = rest).
  { intros flow -> E'. eexists. split.
    - rewrite (process_break _ _ _ E'). apply disconnect_eq.
    - cbn. rewrite Htr, Hsock, Hp, Hf, Hr. repeat split.
      rewrite <- !app_assoc. reflexivity. }
  destruct ending as [data| |errno].
  - destruct (Hbreak Break eq_refl E) as (w' & H1 & H2 & H3 & H4 & H5 & H6 & H7).
    exists w'. repeat split; assumption.
  - exists w1. rewrite (process_return _ _ _ E).
    repeat split; assumption.
  - destruct (Hbreak Break eq_refl E) as (w' & H1 & H2 & H3 & H4 & H5 & H6 & H7).
    exists w'. repeat split; assumption.
Qed.

Lemma process_In_reads_until_block_or_close_witness :
  exists w',
    process EvIn example_receiving = (Ok tt, w') /\
    trace w' =
      [SysRecv 7%Z 4096 (RecvData ["a"; "b"]%byte); Recv (Some ["a"; "b"]%byte);
       SysRecv 7%Z 4096 (RecvData ["c"]%byte); Recv (Some ["c"]%byte);
       SysRecv 7%Z 4096 (RecvData []);
       PollRemove 7%Z; ChangeState Disconnected; Recv None] /\
    mState w' = Disconnected.
Proof.
  destruct (process_In_reads_until_block_or_close
              [["a"; "b"]%byte; ["c"]%byte] (RecvData []) [] example_receiving)
    as (w' & E & _ & _ & Htr & Hst & _).
  - repeat constructor; discriminate.
  - reflexivity.
  - reflexivity.
  - exists w'. split; [exact E|]. split; [exact Htr|exact Hst].
Defined.

(** ** close and stop *)

Lemma close_live w :
  mSock w <> INVALID_SOCKET ->
  exists w',
    close w = (Ok tt, w') /\
    mSock w' = INVALID_SOCKET /\ mState w' = Disconnected /\
    polls w' = delete (mSock w) (polls w) /\
    fds w' = release (mSock w) (fds w) /\
    trace w' = trace w ++ close_actions (mSock w) /\
    mSendQueue w' = mSendQueue w /\ wire w' = wire w /\ env w' = env w.
Proof.
  intros H. eexists. split.
  - unfold close, bind, get. case_decide; [|contradiction]. reflexivity.
  - cbn. rewrite <- !app_assoc. repeat split.
Qed.

Lemma close_invalid w :
  mSock w = INVALID_SOCKET ->
  close w = (Ok tt, log (ChangeState Disconnected) (set_mState Disconnected w)).
Proof.
  intros H. unfold close, bind, get. case_decide; [contradiction|]. reflexivity.
Qed.

Lemma stop_eq b w :
  stop b w = if b then (Ok true, snd (close w)) else (Ok false, w).
Proof.
  destruct b; [|reflexivity]. unfold stop. cbn [negb].
  destruct (decide (mSock w = INVALID_SOCKET)) as [H|H].
  - unfold bind. now rewrite (close_invalid w H).
  - destruct (close_live w H) as (w' & E & _). unfold bind. now rewrite E.
Qed.

(** C10: when process() leaves its try block by break or by a caught
    exception, the disconnect sequence removes the registration, sets the
    state to Disconnected and signals the end of the stream, but the handle
    is still the same descriptor and the descriptor is still open: process()
    never calls ::closesocket.  It is a later close() that unregisters,
    closes and invalidates it.  An Error event, a read of length zero, a
    hard receive error and an exception from the send path all end in that
    sequence. *)
Theorem process_disconnect_keeps_the_descriptor (event : Event) (w w1 : World) :
  process_try event w = (Ok Break, w1) ->
  exists w',
    process event w = (Ok tt, w') /\
    mSock w' = mSock w /\ fds w' = fds w /\
    mState w' = Disconnected /\
    polls w' = delete (mSock w) (polls w1) /\
    (exists ext, trace w1 = trace w ++ ext /\ Forall tame_action ext) /\
    trace w' = trace w1 ++ disconnect_actions (mSock w) /\
    (mSock w <> INVALID_SOCKET ->
     exists w'',
       close w' = (Ok tt, w'') /\
       mSock w'' = INVALID_SOCKET /\
       fds w'' = release (mSock w) (fds w) /\
       trace w'' = trace w' ++ close_actions (mSock w)).
Proof.
  intros E.
  pose proof (tame_process_try event w) as (Hs & Hf & Hext & _).
  rewrite E in Hs, Hf, Hext. cbn [snd] in Hs, Hf, Hext.
  set (w' := snd (disconnect w1)).
  assert (Hs' : mSock w' = mSock w) by exact Hs.
  assert (Hf' : fds w' = fds w) by exact Hf.
  exists w'. split; [rewrite (process_break _ _ _ E); apply disconnect_eq|].
  split; [exact Hs'|]. split; [exact Hf'|]. split; [reflexivity|].
  split; [unfold w'; cbn; now rewrite Hs|]. split; [exact Hext|].
  split; [unfold w'; cbn; now rewrite Hs, <- !app_assoc|].
  intros Hlive.
  destruct (close_live w') as (w'' & Ec & Hc1 & _ & _ & Hc2 & Hc3 & _).
  { now rewrite Hs'. }
  exists w''. rewrite Hs', Hf' in *. repeat split; assumption.
Qed.

(** The causes of the disconnect sequence. *)
Lemma process_try_breaks (w : World) :
  process_try EvError w = (Ok Break, w) /\
  (forall datas ending rest,
     Forall (fun d => d <> []) datas -> ends_read ending ->
     ending <> RecvWouldBlock ->
     recv_script (env w) = map RecvData datas ++ ending :: rest ->
     exists w1, process_try EvIn w = (Ok Break, w1)) /\
  (forall e w1, trySendQueue w = (Throw e, w1) ->
     process_try EvOut w = (Ok Break, w1)).
Proof.
  split; [reflexivity|]. split.
  - intros datas ending rest Hd He Hne Hs.
    destruct (process_try_In datas ending rest w Hd He Hs) as (w1 & E & _).
    exists w1. destruct ending; [exact E|congruence|exact E].
  - intros e w1 E. unfold process_try, try_catch, process_switch.
    now rewrite (bind_throw _ _ _ _ _ E).
Qed.

Lemma process_disconnect_keeps_the_descriptor_witness :
  exists w',
    process EvError example_connected = (Ok tt, w') /\
    mSock w' = 7%Z /\ fds w' = [7%Z] /\ mState w' = Disconnected /\
    polls w' = ∅ /\
    exists w'', close w' = (Ok tt, w'') /\ mSock w'' = INVALID_SOCKET /\ fds w'' = [].
Proof.
  destruct (process_disconnect_keeps_the_descriptor EvError example_connected
              example_connected eq_refl)
    as (w' & E & Hs & Hf & Hst & Hp & _ & _ & Hclose).
  exists w'. split; [exact E|]. split; [exact Hs|]. split; [exact Hf|].
  split; [exact Hst|]. split; [rewrite Hp; reflexivity|].
  destruct Hclose as (w'' & Ec & Hs'' & Hf'' & _); [discriminate|].
  exists w''. split; [exact Ec|]. split; [exact Hs''|exact Hf''].
Defined.

(** ** Descriptors along the trace *)

Lemma release_length sock l : length (release sock l) <= length l.
Proof.
  induction l as [|fd l IH]; simpl; [lia|].
  destruct (Z.eqb fd sock); simpl; lia.
Qed.

Lemma release_singleton sock : release sock [sock] = [].
Proof. simpl. now rewrite Z.eqb_refl. Qed.

Lemma safe_trace_nil : safe_trace [].
Proof. intros tr1 family fd tr2 H. now destruct tr1. Qed.

Lemma safe_trace_snoc tr a :
  safe_trace tr ->
  (forall family fd, a = SysSocket family fd -> fd <> INVALID_SOCKET ->
     open_after tr = [] /\ registered_after tr ⊆ {[INVALID_SOCKET]}) ->
  safe_trace (tr ++ [a]).
Proof.
  intros Hs Ha tr1 family fd tr2 E Hne.
  destruct (decide (tr2 = [])) as [->|Hnil].
  - apply app_inj_tail in E as [-> ->]. now apply (Ha family fd).
  - destruct (exists_last Hnil) as (tr2' & x & ->).
    change (tr ++ [a] = tr1 ++ (SysSocket family fd :: tr2') ++ [x]) in E.
    rewrite app_assoc in E. apply app_inj_tail in E as [-> _].
    now apply (Hs tr1 family fd tr2').
Qed.

Lemma safe_trace_tame tr ext :
  safe_trace tr -> Forall tame_action ext -> safe_trace (tr ++ ext).
Proof.
  intros Hs. induction ext as [|a ext IH] using rev_ind; intros Hf.
  - now rewrite app_nil_r.
  - apply Forall_app in Hf as [Hf Ha]. rewrite app_assoc.
    apply safe_trace_snoc; [now apply IH|].
    intros family fd ->. inversion Ha; subst. contradiction.
Qed.

Lemma safe_trace_prefix tr1 tr2 : safe_trace (tr1 ++ tr2) -> safe_trace tr1.
Proof.
  intros Hs t1 family fd t2 E Hne. apply (Hs t1 family fd (t2 ++ tr2)); [|assumption].
  rewrite E, <- app_assoc. reflexivity.
Qed.

Lemma safe_trace_one_open tr :
  safe_trace tr -> length (open_after tr) <= 1.
Proof.
  induction tr as [|a tr IH] using rev_ind; intros Hs; [simpl; lia|].
  rewrite open_after_snoc.
  specialize (IH (safe_trace_prefix _ _ Hs)).
  destruct a as [| |family fd| | | | | |sock| | | |]; simpl; try assumption.
  - case_decide; [assumption|].
    destruct (Hs tr family fd [] eq_refl) as [-> _]; [assumption|]. simpl. lia.
  - pose proof (release_length sock (open_after tr)). lia.
Qed.

Lemma tame_chain_invariant w w' :
  tame w w' -> chain_invariant w -> chain_invariant w'.
Proof.
  intros (Hs & Hf & (ext & Ht & Ha) & Hd & Hk) (Htr & Hsafe & Hfds & Hdom).
  split; [auto|]. split.
  - rewrite Ht. now apply safe_trace_tame.
  - split; [now rewrite Hs, Hf|]. rewrite Hs. set_solver.
Qed.

Lemma follows_trace ext : forall tr o' r',
  safe_trace tr ->
  follows (open_after tr) (registered_after tr) ext o' r' ->
  open_after (tr ++ ext) = o' /\ registered_after (tr ++ ext) = r' /\
  safe_trace (tr ++ ext).
Proof.
  induction ext as [|a ext IH]; intros tr o' r' Hs Hf.
  - destruct Hf as [-> ->]. now rewrite app_nil_r.
  - destruct Hf as [Ha Hf].
    change (tr ++ a :: ext) with (tr ++ [a] ++ ext). rewrite app_assoc.
    apply IH.
    + now apply safe_trace_snoc.
    + now rewrite open_after_snoc, registered_after_snoc.
Qed.

Lemma follows_chain w w' ext :
  tracked w -> safe_trace (trace w) ->
  trace w' = trace w ++ ext ->
  follows (fds w) (dom (polls w)) ext (fds w') (dom (polls w')) ->
  tracked w' /\ safe_trace (trace w').
Proof.
  intros [Hf Hd] Hs Ht Hfo. rewrite Hf, Hd in Hfo.
  destruct (follows_trace _ _ _ _ Hs Hfo) as (H1 & H2 & H3).
  unfold tracked. rewrite Ht. auto.
Qed.

Lemma teardown_chain w :
  chain_invariant w ->
  chain_invariant (teardown w) /\ mSock (teardown w) = INVALID_SOCKET.
Proof.
  intros (Htr & Hsafe & Hfds & Hdom). split; [|reflexivity].
  destruct (follows_chain w (teardown w)
              [PollRemove (mSock w); SysClosesocket (mSock w)] Htr Hsafe) as [H1 H2].
  - cbn. now rewrite <- app_assoc.
  - cbn. rewrite dom_delete_L. repeat split; discriminate.
  - split; [assumption|]. split; [assumption|]. split.
    + cbn. rewrite Hfds. case_decide as Hi.
      * reflexivity.
      * apply release_singleton.
    + cbn. rewrite dom_delete_L. set_solver.
Qed.

Lemma tame_freeaddrinfo : preserves tame freeaddrinfo.
Proof. tame_prim. Qed.
Lemma tame_sys_getaddrinfo : preserves tame sys_getaddrinfo.
Proof. tame_prim. Qed.
Lemma tame_sys_getsockopt : preserves tame sys_getsockopt.
Proof.
  intros w. unfold sys_getsockopt. destruct (sockopt_script (env w)); revert w; tame_prim.
Qed.
Lemma tame_register params :
  preserves tame (sock <- get mSock ;; PollService_add sock params).
Proof. tame_prim. Qed.
#[local] Hint Resolve tame_freeaddrinfo tame_sys_getaddrinfo tame_sys_getsockopt
  tame_register : pres.

Lemma chain_close w : chain_invariant w -> chain_invariant (snd (close w)).
Proof.
  intros H. destruct (decide (mSock w = INVALID_SOCKET)) as [Hi|Hi].
  - rewrite (close_invalid w Hi). cbn [snd].
    apply (tame_chain_invariant w); [|assumption]. apply (tame_changeState Disconnected w).
  - assert (E : close w = changeState Disconnected (teardown w)).
    { unfold close, bind, get. case_decide; [|contradiction]. reflexivity. }
    rewrite E. apply (tame_chain_invariant (teardown w)).
    + apply (tame_changeState Disconnected).
    + now apply teardown_chain.
Qed.

(** ** The connection attempt chain *)

Lemma one_handle_invalid w :
  one_handle w -> mSock w = INVALID_SOCKET ->
  fds w = [] /\ dom (polls w) ⊆ {[INVALID_SOCKET]}.
Proof.
  intros [Hf Hd] Hi. rewrite Hi in *. split.
  - rewrite Hf. now case_decide.
  - set_solver.
Qed.

Lemma prepare_chain addr w r w' :
  chain_invariant w -> mSock w = INVALID_SOCKET ->
  prepare addr w = (r, w') ->
  chain_invariant w' /\
  match r with
  | Ok _ => mSock w' <> INVALID_SOCKET
  | Throw _ => mSock w' = INVALID_SOCKET
  end.
Proof.
  intros (Htr & Hsafe & Hone) Hi E.
  destruct (one_handle_invalid w Hone Hi) as [Hfds Hdom].
  unfold prepare, try_catch, bind, next_prepare_answer in E.
  set (a := match prepare_script (env w) with
            | [] => mk_prepare_answer INVALID_SOCKET 0 ConnectDone
            | a :: _ => a
            end).
  set (w0 := match prepare_script (env w) with
             | [] => w
             | _ :: rest => set_env (set_prepare_script rest (env w)) w
             end).
  assert (E0 : (match prepare_script (env w) with
                | [] => (Ok (mk_prepare_answer INVALID_SOCKET 0 ConnectDone), w)
                | a :: rest => (Ok a, set_env (set_prepare_script rest (env w)) w)
                end) = (Ok a, w0)).
  { unfold a, w0. now destruct (prepare_script (env w)). }
  rewrite E0 in E. clear E0.
  assert (H0 : fds w0 = fds w /\ polls w0 = polls w /\ trace w0 = trace w /\ mSock w0 = mSock w).
  { unfold w0. now destruct (prepare_script (env w)). }
  destruct H0 as (Hf0 & Hp0 & Ht0 & Hs0).
  unfold sys_socket, sys_ioctl, sys_connect, bind, modify, get, throw, ret, closesocket in E.
  cbn in E.
  repeat case_decide; cbn in E.
  all: try (destruct (ioctl_ret a <? 0)%Z; cbn in E).
  all: try (destruct (connect_ret a); cbn in E).
  all: repeat case_decide; try contradiction; cbn in E.
  all: injection E as <- <-.
  all: split; [|cbn; try assumption; try reflexivity].
  all: match goal with
       | |- chain_invariant ?W =>
         assert (HH : tracked W /\ safe_trace (trace W));
         [ eapply (follows_chain w); [exact Htr|exact Hsafe| |];
           [cbn; rewrite Ht0, <- ?app_assoc; reflexivity|
            cbn; rewrite ?Hf0, ?Hp0, ?Hfds; cbn;
            repeat case_decide; try contradiction; cbn;
            rewrite ?Z.eqb_refl;
            repeat split; try discriminate; try exact Hdom;
            try (intros ? ? [= ? ?]; subst; assumption)]
         | destruct HH as [HH1 HH2]; split; [exact HH1|]; split; [exact HH2|];
           split; cbn; rewrite ?Hf0, ?Hp0, ?Hfds; cbn;
           repeat case_decide; try contradiction; try congruence; cbn;
           rewrite ?Z.eqb_refl; try reflexivity; try set_solver ]
       end.
Qed.

Lemma attempt_chain result ai w :
  chain_invariant w -> mSock w = INVALID_SOCKET ->
  chain_invariant (snd (attempt result ai w)).
Proof.
  revert w. induction ai as [|a ai IH]; intros w Hc Hi.
  - apply (tame_chain_invariant w); [|assumption].
    cbn [attempt]. revert w Hc Hi. intros w _ _. revert w.
    change (preserves tame (freeaddrinfo ;;; changeState Failed)). preserves_walk.
  - cbn [attempt]. unfold bind at 1. unfold try_catch.
    destruct (prepare a w) as [[[]|e] w1] eqn:Ep;
      destruct (prepare_chain a w _ w1 Hc Hi Ep) as [Hc1 Hs1].
    + apply (tame_chain_invariant w1); [|assumption]. apply tame_register.
    + specialize (IH w1 Hc1 Hs1).
      destruct (attempt result ai w1) as [[[]|e2] w2]; cbn [snd] in IH |- *.
      * apply (tame_chain_invariant w2); [|assumption]. apply tame_register.
      * assumption.
Qed.

Lemma connect_callback_chain result ai event w :
  chain_invariant w ->
  chain_invariant (snd (connect_callback result ai event w)).
Proof.
  intros Hc. unfold connect_callback, try_catch.
  match goal with
  | |- context [match ?body w with _ => _ end] =>
    assert (Ht : preserves tame body) by (destruct event; preserves_walk);
    specialize (Ht w); destruct (body w) as [[[]|e] w1]
  end; cbn [snd] in Ht.
  - cbn [snd]. now apply (tame_chain_invariant w).
  - pose proof (tame_chain_invariant w w1 Ht Hc) as Hc1.
    destruct (teardown_chain w1 Hc1) as [Hc2 Hi2].
    change (chain_invariant (snd (attempt result (tail ai) (teardown w1)))).
    now apply attempt_chain.
Qed.

Lemma connect_chain w :
  chain_invariant w -> mSock w = INVALID_SOCKET ->
  chain_invariant (snd (connect w)).
Proof.
  intros Hc Hi. unfold connect. unfold bind at 1.
  pose proof (tame_changeState Connecting w) as Ht0.
  destruct (changeState Connecting w) as [[[]|e] w0] eqn:E0; [|discriminate].
  cbn [snd] in Ht0.
  unfold bind at 1.
  pose proof (tame_sys_getaddrinfo w0) as Ht1.
  destruct (sys_getaddrinfo w0) as [[r|e] w1]; cbn [snd] in Ht1.
  - assert (Hc1 : chain_invariant w1).
    { apply (tame_chain_invariant w0); [assumption|].
      now apply (tame_chain_invariant w). }
    destruct r as [result|]; [|exact Hc1].
    apply attempt_chain; [assumption|].
    destruct Ht0 as [Hs0 _]. destruct Ht1 as [Hs1 _]. congruence.
  - apply (tame_chain_invariant w0); [assumption|].
    now apply (tame_chain_invariant w).
Qed.

Lemma start_chain w : chain_invariant w -> chain_invariant (snd (start w)).
Proof.
  intros Hc. unfold start, bind at 1, get. case_decide as Hi.
  - now apply connect_chain.
  - apply (tame_chain_invariant w); [|assumption].
    revert w Hc Hi. intros w _ _. revert w.
    change (preserves tame (changeState Connected ;;; setPoll DirIn)). preserves_walk.
Qed.

Lemma step_chain op w : chain_invariant w -> chain_invariant (snd (step op w)).
Proof.
  intros Hc. destruct op as [|b|m|sock event]; cbn [step].
  - pose proof (start_chain w Hc). now destruct (start w).
  - rewrite stop_eq. destruct b; cbn [snd]; [now apply chain_close|assumption].
  - pose proof (tame_send m w) as Ht. destruct (send m w) as [r w1].
    now apply (tame_chain_invariant w).
  - unfold PollService_deliver. destruct (polls w !! sock) as [params|]; [|assumption].
    destruct (callback params) as [result ai|]; cbn [run_callback].
    + pose proof (connect_callback_chain result ai event w Hc).
      now destruct (connect_callback result ai event w).
    + pose proof (tame_process event w) as Ht. destruct (process event w) as [r w1].
      now apply (tame_chain_invariant w).
Qed.

Lemma run_chain ops w : chain_invariant w -> chain_invariant (snd (run ops w)).
Proof.
  revert w. induction ops as [|op ops IH]; intros w Hc; [assumption|].
  cbn [run]. pose proof (step_chain op w Hc) as H1.
  destruct (step op w) as [o w1]. specialize (IH w1 H1).
  now destruct (run ops w1).
Qed.

Lemma active_transport_chain e : chain_invariant (active_transport e).
Proof.
  split; [|split].
  - split; [reflexivity|]. cbn. apply dom_empty_L.
  - apply safe_trace_nil.
  - split; [reflexivity|]. cbn. rewrite dom_empty_L. set_solver.
Qed.

(** C2: whatever is done to an active transport (start, stop, sends and
    any readiness events, on any candidate list and with any answers of the
    kernel), at every point of its trace at most one descriptor is open;
    every descriptor is created only when none is open and no live socket
    is registered with the PollService, so the previous candidate's socket
    has been closed and unregistered before; and in the end the handle is
    the one open descriptor, or the invalid sentinel with nothing open. *)
Theorem one_socket_at_a_time (e : Env) (ops : list Op) :
  let w := snd (run ops (active_transport e)) in
  (forall tr1 tr2, trace w = tr1 ++ tr2 -> length (open_after tr1) <= 1) /\
  (forall tr1 family fd tr2,
     trace w = tr1 ++ SysSocket family fd :: tr2 ->
     fd <> INVALID_SOCKET ->
     open_after tr1 = [] /\ registered_after tr1 ⊆ {[INVALID_SOCKET]}) /\
  fds w = open_after (trace w) /\
  fds w = (if decide (mSock w = INVALID_SOCKET) then [] else [mSock w]) /\
  dom (polls w) ⊆ {[mSock w; INVALID_SOCKET]}.
Proof.
  intros w.
  destruct (run_chain ops _ (active_transport_chain e)) as ([Hf Hd] & Hsafe & Hfds & Hdom).
  fold w in Hf, Hd, Hsafe, Hfds, Hdom.
  split; [|split; [exact Hsafe|]].
  - intros tr1 tr2 E. apply safe_trace_one_open.
    apply (safe_trace_prefix tr1 tr2). now rewrite <- E.
  - split; [exact Hf|]. split; [exact Hfds|exact Hdom].
Qed.

Lemma one_socket_at_a_time_witness :
  let w := snd (run [OpStart; OpEvent INVALID_SOCKET EvTimeout]
                  (active_transport example_late_success)) in
  length (open_after (trace w)) <= 1 /\ fds w = [8%Z] /\ mSock w = 8%Z.
Proof.
  intros w.
  destruct (one_socket_at_a_time example_late_success
              [OpStart; OpEvent INVALID_SOCKET EvTimeout])
    as (H1 & _ & _ & _ & _).
  split; [|split; reflexivity].
  apply (H1 (trace w) []). now rewrite app_nil_r.
Defined.

Lemma attempt_ok result ai w : fst (attempt result ai w) = Ok tt.
Proof.
  revert w. induction ai as [|a ai IH]; intros w; [reflexivity|].
  cbn [attempt]. unfold bind at 1, try_catch.
  destruct (prepare a w) as [[[]|e] w1]; [reflexivity|].
  specialize (IH w1). destruct (attempt result ai w1) as [r w2].
  cbn [fst] in IH. subst r. reflexivity.
Qed.

(** Whenever prepare() throws for a candidate, the attempt for that
    candidate still ends by registering its own callback, after the rest of
    the chain has run. *)
Lemma attempt_registers_after_failure result a ai w e w1 :
  prepare a w = (Throw e, w1) ->
  let w2 := snd (attempt result ai w1) in
  attempt result (a :: ai) w =
  (Ok tt, log (PollAdd (mSock w2) (attempt_params result (a :: ai)))
            (set_polls (<[mSock w2 := attempt_params result (a :: ai)]> (polls w2)) w2)).
Proof.
  intros Ep w2. cbn [attempt]. unfold bind at 1, try_catch. rewrite Ep.
  pose proof (attempt_ok result ai w1) as Hok. unfold w2.
  destruct (attempt result ai w1) as [r w3]. cbn [fst snd] in *. subst r.
  reflexivity.
Qed.

(** C3, at the failing input: two candidates, the connect to the first
    refused at once, the connect to the second in progress.  The engine does
    close the first socket and go on to the second candidate, but when the
    chain returns, the attempt of the first candidate goes on to register
    its own callback (cursor at the first candidate) on the current handle,
    replacing the registration of the second candidate. *)
Theorem hard_failure_still_registers_the_failed_candidate :
  let result := [mk_addrinfo 2 100; mk_addrinfo 2 101] in
  let w := snd (start (active_transport example_two_candidates)) in
  trace w =
    [ChangeState Connecting; SysGetaddrinfo;
     SysSocket 2 5; SysIoctl 5 0; SysConnect 5 100 (ConnectRefused 111);
     SysClosesocket 5;
     SysSocket 2 6; SysIoctl 6 0; SysConnect 6 101 ConnectInProgress;
     PollAdd 6 (attempt_params result [mk_addrinfo 2 101]);
     PollAdd 6 (attempt_params result result)] /\
  polls w !! 6%Z = Some (attempt_params result result).
Proof. split; reflexivity. Qed.

(** C7, at the failing input: one candidate whose connect is refused at
    once.  start() reaches Failed with no descriptor open, but leaves the
    callback of the failed candidate registered under the invalid handle
    with the connect timeout; when that timeout fires, the candidate list
    is released and Failed is entered a second time.  With a second
    candidate that can be tried again, the same callback leads from Failed
    to Connected. *)
Theorem failed_is_entered_twice :
  let result := [mk_addrinfo 2 100] in
  let w1 := snd (run [OpStart] (active_transport example_unreachable)) in
  let w2 := snd (run [OpStart; OpEvent INVALID_SOCKET EvTimeout]
                   (active_transport example_unreachable)) in
  let w3 := snd (run [OpStart; OpEvent INVALID_SOCKET EvTimeout; OpEvent 8%Z EvOut]
                   (active_transport example_late_success)) in
  mState w1 = Failed /\ fds w1 = [] /\
  polls w1 !! INVALID_SOCKET = Some (attempt_params result result) /\
  trace w2 =
    [ChangeState Connecting; SysGetaddrinfo;
     SysSocket 2 5; SysIoctl 5 0; SysConnect 5 100 (ConnectRefused 111);
     SysClosesocket 5;
     SysFreeaddrinfo; ChangeState Failed;
     PollAdd INVALID_SOCKET (attempt_params result result);
     PollRemove INVALID_SOCKET; SysClosesocket INVALID_SOCKET;
     SysFreeaddrinfo; ChangeState Failed] /\
  length (List.filter is_failed_transition (trace w2)) = 2 /\
  length (List.filter is_freeaddrinfo (trace w2)) = 2 /\
  mState w3 = Connected /\
  In (ChangeState Failed) (trace w3).
Proof.
  repeat split; try reflexivity.
  vm_compute. tauto.
Qed.

(** ** Teardown *)

Lemma run_stops_after_close bs w :
  mSock w = INVALID_SOCKET -> mState w = Disconnected ->
  Forall returned (fst (run (map OpStop bs) w)) /\
  mSock (snd (run (map OpStop bs) w)) = INVALID_SOCKET /\
  mState (snd (run (map OpStop bs) w)) = Disconnected /\
  fds (snd (run (map OpStop bs) w)) = fds w /\
  polls (snd (run (map OpStop bs) w)) = polls w.
Proof.
  revert w. induction bs as [|b bs IH]; intros w Hi Hs.
  - simpl. repeat split; try assumption. constructor.
  - cbn [map run step]. rewrite stop_eq.
    set (w1 := if b then snd (close w) else w).
    assert (H1 : mSock w1 = INVALID_SOCKET /\ mState w1 = Disconnected /\
                 fds w1 = fds w /\ polls w1 = polls w).
    { unfold w1. destruct b; [|repeat split; assumption].
      rewrite (close_invalid w Hi). repeat split. exact Hi. }
    destruct H1 as (Hi1 & Hs1 & Hf1 & Hp1).
    specialize (IH w1 Hi1 Hs1).
    replace (if b then (Ok true, snd (close w)) else (Ok false, w))
      with (Ok b, w1) by (unfold w1; now destruct b).
    cbn [outcome_bool]. destruct (run (map OpStop bs) w1) as [os w2].
    cbn [fst snd] in *. destruct IH as (Hr & ? & ? & ? & ?).
    repeat split; try congruence. constructor; [exact I|exact Hr].
Qed.

(** C5, as amended: close() never fails, and after it the handle is the
    invalid sentinel and the state is Disconnected whatever they were
    before; a live handle is first unregistered and then closed; a second
    close() only repeats the transition to Disconnected.  stop() does
    exactly what close() does when the base class lets the call through,
    and otherwise returns false without touching anything.  After one
    close(), any number of further stop() calls, let through or not, raise
    nothing and leave the handle invalid and the state Disconnected. *)
Theorem close_is_idempotent_and_stop_is_gated (w : World) :
  exists w1 w2,
    close w = (Ok tt, w1) /\ close w1 = (Ok tt, w2) /\
    mSock w1 = INVALID_SOCKET /\ mState w1 = Disconnected /\
    mSock w2 = INVALID_SOCKET /\ mState w2 = Disconnected /\
    trace w1 = trace w ++ (if decide (mSock w = INVALID_SOCKET)
                           then [ChangeState Disconnected]
                           else close_actions (mSock w)) /\
    fds w1 = (if decide (mSock w = INVALID_SOCKET) then fds w
              else release (mSock w) (fds w)) /\
    polls w1 = (if decide (mSock w = INVALID_SOCKET) then polls w
                else delete (mSock w) (polls w)) /\
    trace w2 = trace w1 ++ [ChangeState Disconnected] /\
    fds w2 = fds w1 /\ polls w2 = polls w1 /\
    stop true w = (Ok true, w1) /\
    stop false w = (Ok false, w) /\
    (forall bs,
       let r := run (map OpStop bs) w1 in
       Forall returned (fst r) /\
       mSock (snd r) = INVALID_SOCKET /\ mState (snd r) = Disconnected /\
       fds (snd r) = fds w1 /\ polls (snd r) = polls w1).
Proof.
  assert (H1 : exists w1, close w = (Ok tt, w1) /\
             mSock w1 = INVALID_SOCKET /\ mState w1 = Disconnected /\
             trace w1 = trace w ++ (if decide (mSock w = INVALID_SOCKET)
                                    then [ChangeState Disconnected]
                                    else close_actions (mSock w)) /\
             fds w1 = (if decide (mSock w = INVALID_SOCKET) then fds w
                       else release (mSock w) (fds w)) /\
             polls w1 = (if decide (mSock w = INVALID_SOCKET) then polls w
                         else delete (mSock w) (polls w))).
  { case_decide as Hi.
    - eexists. split; [apply (close_invalid w Hi)|]. repeat split. exact Hi.
    - destruct (close_live w Hi) as (w1 & E & ? & ? & ? & ? & ? & _).
      exists w1. repeat split; assumption. }
  destruct H1 as (w1 & E1 & Hi1 & Hs1 & Ht1 & Hf1 & Hp1).
  exists w1, (log (ChangeState Disconnected) (set_mState Disconnected w1)).
  split; [exact E1|]. split; [apply (close_invalid w1 Hi1)|].
  split; [exact Hi1|]. split; [exact Hs1|]. split; [exact Hi1|].
  split; [reflexivity|]. split; [exact Ht1|]. split; [exact Hf1|].
  split; [exact Hp1|]. split; [reflexivity|]. split; [reflexivity|].
  split; [reflexivity|].
  split; [rewrite stop_eq, E1; reflexivity|]. split; [reflexivity|].
  intros bs. apply run_stops_after_close; assumption.
Qed.

(** C5 as stated fails for stop(): when the base class does not let the
    call through, stop() returns false and nothing happens.  On a transport
    built around the connected socket 7 the handle is still 7 afterwards,
    the descriptor is still open, and no transition has been made. *)
Lemma stop_refused_changes_nothing :
  let w := passive_transport 7%Z (mk_Env None [] [] [] []) in
  stop false w = (Ok false, w) /\
  mSock (snd (stop false w)) = 7%Z /\
  mSock (snd (stop false w)) <> INVALID_SOCKET /\
  fds (snd (stop false w)) = [7%Z] /\
  trace (snd (stop false w)) = [] /\
  ~ (forall (b : bool) (w : World),
       mSock (snd (stop b w)) = INVALID_SOCKET /\
       exists tr, trace (snd (stop b w)) = tr ++ [ChangeState Disconnected]).
Proof.
  repeat split; try discriminate.
  intros H.
  destruct (H false (passive_transport 7%Z (mk_Env None [] [] [] []))) as [H1 _].
  discriminate.
Qed.

(** * Further properties *)

(** ** prepare *)

Lemma release_snoc sock l : release sock (l ++ [sock]) ≡ₚ l.
Proof.
  induction l as [|fd l IH]; simpl.
  - now rewrite Z.eqb_refl.
  - destruct (Z.eqb_spec fd sock) as [->|Hne].
    + symmetry. apply Permutation_cons_append.
    + now rewrite IH.
Qed.

(** X1: prepare() never leaves a descriptor behind.  When it returns, the
    handle is the newly created descriptor, which is the only one added to
    the open ones.  When it throws (socket creation, non-blocking mode or
    an immediate connect failure), the handle is the invalid sentinel and
    the open descriptors are those from before: what was created has been
    closed again.  Either way nothing is registered and the state is as it
    was. *)
Theorem prepare_closes_what_it_opened (addr : addrinfo) (w : World) :
  let r := fst (prepare addr w) in
  let w' := snd (prepare addr w) in
  polls w' = polls w /\ mState w' = mState w /\
  mSendQueue w' = mSendQueue w /\ wire w' = wire w /\
  match r with
  | Ok _ => mSock w' <> INVALID_SOCKET /\ fds w' = fds w ++ [mSock w']
  | Throw e =>
    mSock w' = INVALID_SOCKET /\ fds w' ≡ₚ fds w /\
    (e = SocketCreationFailed \/ e = NonBlockingFailed \/
     exists errno, e = ConnectFailed errno)
  end.
Proof.
  unfold prepare, try_catch, bind, next_prepare_answer.
  set (a := match prepare_script (env w) with
            | [] => mk_prepare_answer INVALID_SOCKET 0 ConnectDone
            | a :: _ => a
            end).
  set (w0 := match prepare_script (env w) with
             | [] => w
             | _ :: rest => set_env (set_prepare_script rest (env w)) w
             end).
  assert (E0 : (match prepare_script (env w) with
                | [] => (Ok (mk_prepare_answer INVALID_SOCKET 0 ConnectDone), w)
                | a :: rest => (Ok a, set_env (set_prepare_script rest (env w)) w)
                end) = (Ok a, w0)).
  { unfold a, w0. now destruct (prepare_script (env w)). }
  rewrite E0. clear E0.
  assert (H0 : fds w0 = fds w /\ polls w0 = polls w /\ mState w0 = mState w /\
               mSendQueue w0 = mSendQueue w /\ wire w0 = wire w).
  { unfold w0. now destruct (prepare_script (env w)). }
  destruct H0 as (Hf0 & Hp0 & Hs0 & Hq0 & Hw0).
  unfold sys_socket, sys_ioctl, sys_connect, bind, modify, get, throw, ret, closesocket.
  cbn.
  repeat case_decide; cbn.
  all: try (destruct (ioctl_ret a <? 0)%Z; cbn).
  all: try (destruct (connect_ret a); cbn).
  all: repeat case_decide; try contradiction; cbn.
  all: rewrite ?Hf0.
  all: repeat split; try assumption; try congruence; try (now apply release_snoc);
       eauto.
Qed.

(** ** start and the callbacks: which exceptions get out *)

Lemma start_live w :
  mSock w <> INVALID_SOCKET -> fst (start w) = Ok tt.
Proof. intros H. unfold start, bind at 1, get. now case_decide. Qed.

Lemma start_resolved w result :
  mSock w = INVALID_SOCKET -> getaddrinfo_result (env w) = Some result ->
  fst (start w) = Ok tt.
Proof.
  intros Hi Hg. unfold start, bind at 1, get. case_decide; [|contradiction].
  unfold connect, bind, changeState, sys_getaddrinfo, modify, get. cbn.
  rewrite Hg. apply attempt_ok.
Qed.

Lemma start_unresolved w :
  mSock w = INVALID_SOCKET -> getaddrinfo_result (env w) = None ->
  start w = (Throw ResolutionFailed,
             log SysGetaddrinfo (log (ChangeState Connecting) (set_mState Connecting w))).
Proof.
  intros Hi Hg. unfold start, bind at 1, get. case_decide; [|contradiction].
  unfold connect, bind, changeState, sys_getaddrinfo, modify, get. cbn.
  now rewrite Hg.
Qed.

(** X2: start() raises nothing but "Resolution failed", and raises it
    exactly when the handle is invalid and getaddrinfo fails.  The state is
    then left at Connecting (there is no transition to Failed), and no
    descriptor has been created and nothing registered.  Whatever the
    candidates do once resolution has succeeded stays inside start(). *)
Theorem start_raises_only_when_resolution_fails (w : World) :
  let r := fst (start w) in
  let w' := snd (start w) in
  (r = Ok tt \/ r = Throw ResolutionFailed) /\
  (r = Throw ResolutionFailed <->
   mSock w = INVALID_SOCKET /\ getaddrinfo_result (env w) = None) /\
  (r = Throw ResolutionFailed ->
   mState w' = Connecting /\ mSock w' = INVALID_SOCKET /\
   fds w' = fds w /\ polls w' = polls w /\
   trace w' = trace w ++ [ChangeState Connecting; SysGetaddrinfo]).
Proof.
  intros r w'. subst r w'.
  destruct (decide (mSock w = INVALID_SOCKET)) as [Hi|Hi].
  - destruct (getaddrinfo_result (env w)) as [result|] eqn:Hg.
    + rewrite (start_resolved w result Hi Hg).
      split; [now left|]. split; [|discriminate].
      split; [discriminate|]. intros [_ [=]].
    + rewrite (start_unresolved w Hi Hg). cbn.
      split; [now right|]. split; [tauto|].
      intros _. rewrite <- app_assoc. repeat split. exact Hi.
  - rewrite (start_live w Hi).
    split; [now left|]. split; [|discriminate].
    split; [discriminate|]. intros [? _]. contradiction.
Qed.

Lemma process_ok event w : fst (process event w) = Ok tt.
Proof.
  unfold process, process_try, try_catch, bind.
  destruct (process_switch event w) as [[[|]|e] w1]; reflexivity.
Qed.

Lemma connect_callback_ok result ai event w :
  fst (connect_callback result ai event w) = Ok tt.
Proof.
  unfold connect_callback, try_catch.
  match goal with
  | |- context [match ?body w with _ => _ end] => destruct (body w) as [[[]|e] w1]
  end; [reflexivity|].
  change (fst (attempt result (tail ai) (teardown w1)) = Ok tt).
  apply attempt_ok.
Qed.

(** X3: no exception of the transport reaches the PollService.  Whatever
    event is delivered for whatever socket, and whatever the kernel
    answers, the registered callback (the poll callback of a connection
    attempt, or process()) returns normally: failures are turned into the
    next attempt, into Failed, or into the disconnect sequence. *)
Theorem callbacks_never_throw (sock : socket_t) (event : Event) (w : World) :
  fst (PollService_deliver sock event w) = Ok tt.
Proof.
  unfold PollService_deliver. destruct (polls w !! sock) as [params|]; [|reflexivity].
  destruct (callback params) as [result ai|]; cbn [run_callback].
  - apply connect_callback_ok.
  - apply process_ok.
Qed.

(** ** send: what the returned value and the exception mean *)

Lemma outgoing_result m w b w' :
  outgoing m w = (Ok b, w') ->
  mState w' = mState w /\ mSock w' = mSock w /\ fds w' = fds w /\
  wire w' ++ concat (mSendQueue w') = wire w ++ concat (mSendQueue w) ++ m /\
  if b then mSendQueue w' = [] /\ polls w' = polls w
  else mSendQueue w' <> [] /\
       polls w' = <[mSock w := mk_Params DirBoth None ProcessCallback]> (polls w).
Proof.
  intros E.
  pose proof (outgoing_spec _ _ m w _ w' (in_flight_start w) E)
    as (Hs & Hst & Hf & _ & Hin & _).
  apply in_flight_bytes in Hin. rewrite concat_app in Hin. simpl in Hin.
  rewrite app_nil_r in Hin.
  split; [exact Hst|]. split; [exact Hs|]. split; [exact Hf|]. split; [exact Hin|].
  unfold outgoing in E. unfold bind at 1 in E.
  destruct (trySendQueue w) as [[[|]|e] w1] eqn:Eq; [| |discriminate].
  - apply trySendQueue_spec in Eq.
    destruct Eq as ((Hs1 & _ & Hp1 & _) & _ & Hq1 & _).
    unfold bind at 1 in E.
    destruct (trySendMessage m w1) as [[[|rest]|e] w2] eqn:Em; [| |discriminate];
      apply trySendMessage_spec in Em;
      destruct Em as ((Hs2 & _ & Hp2 & _) & Hq2 & _).
    + injection E as <- <-. split; congruence.
    + unfold bind in E. cbn in E. injection E as <- <-. cbn. split.
      * intros H. now apply app_eq_nil in H as [_ H].
      * congruence.
  - apply trySendQueue_spec in Eq. destruct Eq as ((Hs1 & _ & Hp1 & _) & _).
    unfold bind in E. cbn in E. injection E as <- <-. cbn. split.
    + intros H. now apply app_eq_nil in H as [_ H].
    + congruence.
Qed.

(** X4: on a Connected transport, send() of a message returns true exactly
    when everything, the queued messages and the message itself, has been
    handed to the kernel: the queue is then empty and the registration is
    left alone.  When it returns false, something is queued and the socket
    is registered for Both, so that writability is reported.  In both cases
    no byte is lost or repeated. *)
Theorem send_returns_whether_all_was_written (m : message) (w w' : World) (b : bool) :
  mState w = Connected ->
  send (Some m) w = (Ok b, w') ->
  mState w' = Connected /\
  wire w' ++ concat (mSendQueue w') = wire w ++ concat (mSendQueue w) ++ m /\
  if b then mSendQueue w' = [] /\ polls w' = polls w
  else mSendQueue w' <> [] /\
       polls w' = <[mSock w := mk_Params DirBoth None ProcessCallback]> (polls w).
Proof.
  intros Hc E. rewrite send_connected in E by assumption.
  destruct (outgoing_result m w b w' E) as (Hst & _ & _ & Hw & Hb).
  split; [congruence|]. split; assumption.
Qed.

Lemma send_returns_whether_all_was_written_witness :
  exists w',
    send (Some ["a"; "b"; "c"]%byte) example_connected = (Ok false, w') /\
    mSendQueue w' = [["b"; "c"]%byte] /\ wire w' = ["a"%byte] /\
    polls w' = <[7%Z := mk_Params DirBoth None ProcessCallback]>
                 (polls example_connected).
Proof.
  eexists. split; [reflexivity|].
  destruct (send_returns_whether_all_was_written ["a"; "b"; "c"]%byte
              example_connected _ false eq_refl eq_refl) as (_ & _ & _ & Hp).
  split; [reflexivity|]. split; [reflexivity|]. exact Hp.
Defined.

Lemma trySendQueue_loop_throw queue w e w' :
  mSendQueue w = queue ->
  trySendQueue_loop queue w = (Throw e, w') ->
  mSendQueue w' `suffix_of` queue /\ mSendQueue w' <> [].
Proof.
  revert w. induction queue as [|next queue IH]; intros w Hq E.
  - discriminate.
  - cbn [trySendQueue_loop] in E. unfold bind at 1 in E.
    destruct (trySendMessage next w) as [[[|rest]|e1] w1] eqn:Em;
      apply trySendMessage_spec in Em; destruct Em as (_ & Hq1 & _).
    + unfold bind at 1 in E. cbn [Queue_pop modify] in E.
      destruct (IH (set_mSendQueue (tail (mSendQueue w1)) w1)) as [Hsuf Hne];
        [cbn; now rewrite Hq1, Hq|exact E|].
      split; [now apply suffix_cons_r|exact Hne].
    + unfold bind in E. cbn in E. destruct (mSendQueue w1); discriminate.
    + injection E as <- <-. rewrite Hq1, Hq. split; [reflexivity|discriminate].
Qed.

(** X5: a hard error of ::send inside send() reaches the caller as
    "Connection closed" and nothing is cleaned up: the state is still
    Connected, the handle, the descriptor and the registration are as they
    were.  The message passed to the call is not queued: the queue holds a
    suffix of what it held before. *)
Theorem send_hard_error_reaches_the_caller (m : message_ptr) (w w' : World)
    (e : runtime_error) :
  mState w = Connected ->
  send m w = (Throw e, w') ->
  e = ConnectionClosed /\
  mState w' = Connected /\ mSock w' = mSock w /\ fds w' = fds w /\
  polls w' = polls w /\
  mSendQueue w' `suffix_of` mSendQueue w /\
  ~ no_send_failure (trace w').
Proof.
  intros Hc E. rewrite send_connected in E by assumption.
  assert (Hq : trySendQueue w = (Throw e, w') ->
               e = ConnectionClosed /\
               mState w' = Connected /\ mSock w' = mSock w /\ fds w' = fds w /\
               polls w' = polls w /\
               mSendQueue w' `suffix_of` mSendQueue w /\
               ~ no_send_failure (trace w')).
  { intros Eq. pose proof (trySendQueue_loop_throw _ w e w' eq_refl Eq) as [Hsuf _].
    apply trySendQueue_spec in Eq.
    destruct Eq as ((Hs & Hst & Hp & Hf) & _ & He & Hfail).
    repeat split; try assumption; congruence. }
  destruct m as [x|]; [|now apply Hq].
  unfold outgoing in E. unfold bind at 1 in E.
  destruct (trySendQueue w) as [[[|]|e1] w1] eqn:Eq.
  - apply trySendQueue_spec in Eq.
    destruct Eq as ((Hs1 & Hst1 & Hp1 & Hf1) & _ & Hq1 & _).
    unfold bind at 1 in E.
    destruct (trySendMessage x w1) as [[[|rest]|e2] w2] eqn:Em.
    + discriminate.
    + unfold bind in E. cbn in E. discriminate.
    + injection E as <- <-. apply trySendMessage_spec in Em.
      destruct Em as ((Hs2 & Hst2 & Hp2 & Hf2) & Hq2 & _ & He & Hfail).
      repeat split; try congruence.
      rewrite Hq2, Hq1. apply suffix_nil.
  - unfold bind in E. cbn in E. discriminate.
  - injection E as <- <-. now apply Hq.
Qed.

Lemma send_hard_error_reaches_the_caller_witness :
  exists w',
    send (Some ["a"; "b"; "c"]%byte) example_broken_pipe = (Throw ConnectionClosed, w') /\
    mState w' = Connected /\ wire w' = ["a"%byte] /\ mSendQueue w' = [] /\
    polls w' = polls example_broken_pipe.
Proof.
  eexists. split; [reflexivity|].
  destruct (send_hard_error_reaches_the_caller (Some ["a"; "b"; "c"]%byte)
              example_broken_pipe _ ConnectionClosed eq_refl eq_refl)
    as (_ & Hst & _ & _ & Hp & _).
  split; [exact Hst|]. split; [reflexivity|]. split; [reflexivity|exact Hp].
Defined.

(** ** process(Out) *)

(** X6: an Out event without a hard ::send error leaves the state alone
    and flushes the queue in order.  If the queue is empty afterwards, the
    socket is registered for In only; if something is still queued, the
    registration is not touched. *)
Theorem process_Out_rearms_for_In_when_drained (w w' : World) (r : Result unit) :
  process EvOut w = (r, w') ->
  no_send_failure (trace w') ->
  r = Ok tt /\ mState w' = mState w /\ mSock w' = mSock w /\ fds w' = fds w /\
  wire w' ++ concat (mSendQueue w') = wire w ++ concat (mSendQueue w) /\
  ((mSendQueue w' = [] /\
    polls w' = <[mSock w := mk_Params DirIn None ProcessCallback]> (polls w)) \/
   (mSendQueue w' <> [] /\ polls w' = polls w)).
Proof.
  intros E Hn.
  pose proof (process_ok EvOut w) as Hok. rewrite E in Hok. cbn in Hok. subst r.
  split; [reflexivity|].
  unfold process, process_try, process_switch in E. unfold bind at 1 in E.
  unfold try_catch in E. unfold bind at 1 in E.
  destruct (trySendQueue w) as [[b|e] w1] eqn:Eq.
  - destruct (in_flight_trySendQueue _ _ _ _ _ (in_flight_start w) Eq) as [Hin _].
    apply in_flight_bytes in Hin.
    apply trySendQueue_spec in Eq.
    destruct Eq as ((Hs1 & Hst1 & Hp1 & Hf1) & _ & Hres).
    destruct b; cbn in E; injection E as <-; cbn.
    + destruct Hres as [Hq Hw]. repeat split; try assumption.
      left. split; [assumption|]. congruence.
    + destruct Hres as (done & part & h & t & _ & _ & Hq' & _).
      repeat split; try assumption.
      right. split; [now rewrite Hq'|assumption].
  - apply trySendQueue_spec in Eq. destruct Eq as (_ & _ & _ & Hfail).
    exfalso. apply Hfail. cbn [ret] in E.
    pose proof (quiet_disconnect w1) as (_ & _ & Hext).
    change (disconnect w1 = (Ok tt, w')) in E. rewrite E in Hext.
    now apply (no_send_failure_extends w1 w').
Qed.

Lemma process_Out_rearms_for_In_when_drained_witness :
  exists w',
    process EvOut example_backlog = (Ok tt, w') /\
    mSendQueue w' = [["a"%byte]] /\ polls w' = polls example_backlog.
Proof.
  eexists. split; [reflexivity|].
  destruct (process_Out_rearms_for_In_when_drained example_backlog _ (Ok tt) eq_refl)
    as (_ & _ & _ & _ & _ & [[Hq _]|[_ Hp]]).
  - vm_compute. repeat constructor.
  - discriminate Hq.
  - split; [reflexivity|exact Hp].
Defined.

(** X7: back-pressure round trip.  If send() of a message returns false on
    a Connected transport, and the kernel then takes at least one byte per
    call for as many calls as there are bytes queued, the next Out event
    writes everything out: the wire holds what was queued before and the
    whole message, in that order, the queue is empty, the state is still
    Connected and the socket is registered for In only. *)
Theorem partial_send_completes_on_writable (m : message) (w w1 : World) :
  mState w = Connected ->
  send (Some m) w = (Ok false, w1) ->
  Forall accepting (send_script (env w1)) ->
  length (concat (mSendQueue w1)) <= length (send_script (env w1)) ->
  exists w2,
    process EvOut w1 = (Ok tt, w2) /\
    mSendQueue w2 = [] /\
    wire w2 = wire w ++ concat (mSendQueue w) ++ m /\
    mState w2 = Connected /\
    polls w2 !! mSock w = Some (mk_Params DirIn None ProcessCallback).
Proof.
  intros Hc E Ha Hlen.
  rewrite send_connected in E by assumption.
  destruct (outgoing_result m w false w1 E) as (Hst1 & Hs1 & _ & Hw & _).
  assert (Hc1 : mState w1 = Connected) by congruence.
  destruct (flush_drains w1 Ha Hlen) as (w' & Ef & Hq' & Hw').
  pose proof (trySendQueue_spec _ _ _ Ef) as ((Hs' & Hst' & Hp' & Hf') & _).
  eexists. split.
  - unfold process, process_try, process_switch. unfold bind at 1.
    unfold try_catch. unfold bind at 1. rewrite Ef. reflexivity.
  - cbn. split; [exact Hq'|]. split; [now rewrite Hw', Hw|].
    split; [congruence|]. rewrite Hs', Hs1. apply lookup_insert_eq.
Qed.

Lemma partial_send_completes_on_writable_witness :
  exists w1 w2,
    send (Some ["a"; "b"; "c"]%byte) example_connected = (Ok false, w1) /\
    process EvOut w1 = (Ok tt, w2) /\
    wire w2 = ["a"; "b"; "c"]%byte /\ mSendQueue w2 = [].
Proof.
  eexists.
  destruct (partial_send_completes_on_writable ["a"; "b"; "c"]%byte
              example_connected _ eq_refl eq_refl) as (w2 & E & Hq & Hw & _).
  - vm_compute. repeat constructor.
  - vm_compute. lia.
  - exists w2. split; [reflexivity|]. split; [exact E|]. split; [exact Hw|exact Hq].
Defined.

(** ** After stop() *)

Lemma run_late sock ops w :
  mState w <> Connected -> polls w !! sock = None ->
  Forall (late_for sock) ops ->
  run ops w = (map late_outcome ops, w).
Proof.
  intros Hs Hp Hl. induction Hl as [|op ops Hop Hl IH]; [reflexivity|].
  cbn [run map].
  assert (E : step op w = (late_outcome op, w)).
  { destruct op as [|b|m|s ev]; try contradiction; cbn [step late_outcome].
    - now rewrite send_not_connected.
    - cbn in Hop. subst s. unfold PollService_deliver. now rewrite Hp. }
  now rewrite E, IH.
Qed.

(** X8: stop() cancels.  Once a stop() that the base class lets through
    has closed a live handle, events that still arrive for that socket find
    no callback and do nothing, and every send() fails with "Connection is
    not open": the world stays exactly as close() left it.  What was queued
    at that moment stays in the queue; it is neither sent nor cleared. *)
Theorem stop_makes_the_transport_inert (w : World) (ops : list Op) :
  mSock w <> INVALID_SOCKET ->
  Forall (late_for (mSock w)) ops ->
  run (OpStop true :: ops) w =
    (Returned (Some true) :: map late_outcome ops, snd (close w)) /\
  mSendQueue (snd (close w)) = mSendQueue w /\
  wire (snd (close w)) = wire w /\
  polls (snd (close w)) !! mSock w = None.
Proof.
  intros Hlive Hl.
  destruct (close_live w Hlive) as (w1 & E & Hi & Hs & Hp & _ & _ & Hq & Hw & _).
  rewrite E. cbn [snd].
  assert (Hnone : polls w1 !! mSock w = None) by (rewrite Hp; apply lookup_delete_eq).
  split; [|repeat split; assumption].
  cbn [run step]. rewrite stop_eq, E. cbn [snd outcome_bool].
  rewrite (run_late (mSock w) ops w1); [reflexivity| |assumption|assumption].
  rewrite Hs. discriminate.
Qed.

Lemma stop_makes_the_transport_inert_witness :
  run [OpStop true; OpEvent 7%Z EvOut; OpSend (Some ["x"%byte]); OpEvent 7%Z EvIn]
      example_backlog =
    ([Returned (Some true); Returned None; Raised ConnectionIsNotOpen; Returned None],
     snd (close example_backlog)) /\
  mSendQueue (snd (close example_backlog)) = [["a"%byte]].
Proof.
  destruct (stop_makes_the_transport_inert example_backlog
              [OpEvent 7%Z EvOut; OpSend (Some ["x"%byte]); OpEvent 7%Z EvIn])
    as (Hrun & Hq & _).
  - discriminate.
  - repeat constructor.
  - split; [exact Hrun|exact Hq].
Defined.

(** ** The candidate chain, attempt by attempt *)

Lemma attempt_pending result c cs w a rest :
  prepare_script (env w) = a :: rest -> pending a ->
  exists w1,
    attempt result (c :: cs) w = (Ok tt, w1) /\
    mSock w1 = socket_ret a /\
    fds w1 = fds w ++ [socket_ret a] /\
    polls w1 = <[socket_ret a := attempt_params result (c :: cs)]> (polls w) /\
    mState w1 = mState w /\
    prepare_script (env w1) = rest /\
    sockopt_script (env w1) = sockopt_script (env w) /\
    trace w1 = trace w ++ [SysSocket (ai_family c) (socket_ret a);
                           SysIoctl (socket_ret a) (ioctl_ret a);
                           SysConnect (socket_ret a) (ai_addr c) (connect_ret a);
                           PollAdd (socket_ret a) (attempt_params result (c :: cs))].
Proof.
  intros Hs (Hsock & Hio & Hconn).
  exists (log (PollAdd (socket_ret a) (attempt_params result (c :: cs)))
            (set_polls (<[socket_ret a := attempt_params result (c :: cs)]> (polls w))
               (log (SysConnect (socket_ret a) (ai_addr c) (connect_ret a))
                  (log (SysIoctl (socket_ret a) (ioctl_ret a))
                     (set_mSock (socket_ret a)
                        (set_fds (fds w ++ [socket_ret a])
                           (log (SysSocket (ai_family c) (socket_ret a))
                              (set_env (set_prepare_script rest (env w)) w)))))))).
  split.
  - cbn [attempt].
    unfold prepare, try_catch, bind, next_prepare_answer, sys_socket, sys_ioctl,
      sys_connect, modify, get, throw, ret, closesocket, PollService_add.
    rewrite Hs. cbn.
    repeat case_decide; try contradiction. cbn. rewrite Hio. cbn.
    destruct (connect_ret a) eqn:Ec; try (exfalso; eapply Hconn; reflexivity);
      cbn; repeat case_decide; try contradiction; reflexivity.
  - cbn. rewrite <- !app_assoc. repeat split.
Qed.

Lemma callback_gives_up result ai f w more :
  failure_ok f ->
  sockopt_script (env w) = sockopts [f] ++ more ->
  exists wf,
    connect_callback result ai (event_of f) w =
      attempt result (tail ai) (teardown wf) /\
    mSock wf = mSock w /\ fds wf = fds w /\ polls wf = polls w /\
    mState wf = mState w /\
    prepare_script (env wf) = prepare_script (env w) /\
    sockopt_script (env wf) = more /\
    trace wf = trace w ++ match f with
                          | BySoError s => [SysGetsockopt (mSock w) s]
                          | _ => []
                          end.
Proof.
  intros Hok Hs. destruct f as [| |s]; cbn in Hs.
  - exists w. rewrite app_nil_r. repeat split; assumption.
  - exists w. rewrite app_nil_r. repeat split; assumption.
  - exists (log (SysGetsockopt (mSock w) s)
              (set_env (set_sockopt_script more (env w)) w)).
    split; [|repeat split].
    unfold connect_callback, try_catch, event_of, bind at 1, sys_getsockopt.
    rewrite Hs. cbn in Hok.
    destruct (decide (getsockopt_ret s <> 0%Z)) as [H1|H1]; [reflexivity|].
    destruct (decide (so_error s <> 0%Z)) as [H2|H2]; [reflexivity|].
    tauto.
Qed.

Lemma callback_succeeds result ai w more :
  sockopt_script (env w) = mk_sockopt_answer 0 0 :: more ->
  exists w',
    connect_callback result ai EvOut w = (Ok tt, w') /\
    mSock w' = mSock w /\ fds w' = fds w /\
    polls w' = <[mSock w := mk_Params DirIn None ProcessCallback]> (polls w) /\
    mState w' = Connected /\
    trace w' = trace w ++ [SysGetsockopt (mSock w) (mk_sockopt_answer 0 0);
                           SysFreeaddrinfo; ChangeState Connected;
                           PollAdd (mSock w) (mk_Params DirIn None ProcessCallback)].
Proof.
  intros Hs. eexists. split.
  - unfold connect_callback, try_catch, bind at 1, sys_getsockopt. rewrite Hs.
    cbn. reflexivity.
  - cbn. rewrite <- !app_assoc. repeat split.
Qed.

Lemma teardown_pending w sock p :
  mSock w = sock -> fds w = [sock] -> polls w = <[sock := p]> ∅ ->
  idle (teardown w).
Proof.
  intros Hs Hf Hp. unfold idle, teardown. cbn. rewrite Hs, Hf, Hp.
  split; [reflexivity|]. split; [apply release_singleton|].
  rewrite delete_insert_eq. apply delete_empty.
Qed.

Lemma sockopts_cons f fs : sockopts (f :: fs) = sockopts [f] ++ sockopts fs.
Proof. unfold sockopts. simpl. now rewrite app_nil_r. Qed.

Lemma chain_advances result rest : forall failed answers fs w more_p more_s,
  length answers = length failed -> length fs = length failed ->
  Forall pending answers -> Forall failure_ok fs ->
  idle w ->
  prepare_script (env w) = answers ++ more_p ->
  sockopt_script (env w) = sockopts fs ++ more_s ->
  exists wk,
    run (chain_events answers fs) (snd (attempt result (failed ++ rest) w)) =
      (map (fun _ => Returned None) fs, snd (attempt result rest wk)) /\
    idle wk /\ mState wk = mState w /\
    prepare_script (env wk) = more_p /\ sockopt_script (env wk) = more_s /\
    trace wk = trace w ++ chain_actions result (failed ++ rest) answers fs.
Proof.
  induction failed as [|c failed IH]; intros answers fs w more_p more_s
    Hla Hlf Hpend Hfail Hidle Hp Hs.
  - destruct answers; [|discriminate]. destruct fs; [|discriminate].
    exists w. cbn in *. split; [reflexivity|]. split; [assumption|].
    split; [reflexivity|]. split; [assumption|]. split; [assumption|].
    destruct rest; cbn; now rewrite app_nil_r.
  - destruct answers as [|a answers]; [discriminate|].
    destruct fs as [|f fs]; [discriminate|].
    apply Forall_cons in Hpend as [Ha Hpend].
    apply Forall_cons in Hfail as [Hf Hfail].
    destruct Hidle as (Hi & Hfd & Hpo).
    destruct (attempt_pending result c (failed ++ rest) w a (answers ++ more_p) Hp Ha)
      as (w1 & E1 & Hs1 & Hf1 & Hp1 & Hst1 & Hpr1 & Hso1 & Htr1).
    change ((c :: failed) ++ rest) with (c :: failed ++ rest).
    rewrite E1. cbn [snd chain_events run step map].
    unfold PollService_deliver. rewrite Hp1, lookup_insert_eq.
    cbn [callback attempt_params run_callback].
    rewrite sockopts_cons, <- app_assoc in Hs. rewrite <- Hso1 in Hs.
    destruct (callback_gives_up result (c :: failed ++ rest) f w1 _ Hf Hs)
      as (wf & Ecb & Hsf & Hff & Hpf & Hstf & Hprf & Hsof & Htrf).
    rewrite Ecb. cbn [tail].
    assert (Hidle' : idle (teardown wf)).
    { apply (teardown_pending wf (socket_ret a) (attempt_params result (c :: failed ++ rest))).
      - congruence.
      - rewrite Hff, Hf1, Hfd. reflexivity.
      - rewrite Hpf, Hp1, Hpo. reflexivity. }
    assert (Hla' : length answers = length failed) by now injection Hla.
    assert (Hlf' : length fs = length failed) by now injection Hlf.
    assert (Hpr' : prepare_script (env (teardown wf)) = answers ++ more_p)
      by (cbn; congruence).
    assert (Hso' : sockopt_script (env (teardown wf)) = sockopts fs ++ more_s)
      by exact Hsof.
    destruct (IH answers fs (teardown wf) more_p more_s Hla' Hlf' Hpend Hfail
                 Hidle' Hpr' Hso') as (wk & Erun & Hik & Hstk & Hprk & Hsok & Htrk).
    + exists wk.
      pose proof (attempt_ok result (failed ++ rest) (teardown wf)) as Hok.
      destruct (attempt result (failed ++ rest) (teardown wf)) as [r w2].
      cbn [fst snd] in *. subst r. cbn [outcome_unit].
      rewrite Erun. split; [reflexivity|]. split; [assumption|].
      split; [cbn in Hstk; congruence|]. split; [assumption|]. split; [assumption|].
      rewrite Htrk. cbn [teardown trace log set_mSock set_fds set_polls].
      rewrite Htrf, Htr1, Hsf, Hs1. cbn [chain_actions]. unfold attempt_actions.
      rewrite <- !app_assoc. cbn. destruct f; reflexivity.
Qed.


Lemma start_active e result :
  getaddrinfo_result e = Some result ->
  start (active_transport e) =
  attempt result result
    (log SysGetaddrinfo
       (log (ChangeState Connecting) (set_mState Connecting (active_transport e)))).
Proof.
  intros Hg. unfold start, bind at 1, get. case_decide; [|contradiction].
  unfold connect, bind, changeState, sys_getaddrinfo, modify, get. cbn.
  now rewrite Hg.
Qed.

Lemma run_app ops1 ops2 w :
  run (ops1 ++ ops2) w =
  (fst (run ops1 w) ++ fst (run ops2 (snd (run ops1 w))),
   snd (run ops2 (snd (run ops1 w)))).
Proof.
  revert w. induction ops1 as [|op ops1 IH]; intros w.
  - cbn. now destruct (run ops2 w).
  - cbn [app run]. destruct (step op w) as [o w1]. rewrite IH.
    destruct (run ops1 w1) as [os w2]. reflexivity.
Qed.

Lemma chain_actions_quiet result : forall ai answers fs,
  List.filter is_failed_transition (chain_actions result ai answers fs) = [] /\
  List.filter is_freeaddrinfo (chain_actions result ai answers fs) = [].
Proof.
  induction ai as [|c ai IH]; intros answers fs; [now split|].
  destruct answers as [|a answers]; [now split|].
  destruct fs as [|f fs]; [now split|].
  cbn [chain_actions]. unfold attempt_actions.
  rewrite !List.filter_app. destruct (IH answers fs) as [-> ->].
  destruct f; now split.
Qed.

(** X9: sequential fallback.  When every candidate's connect gets under
    way and every attempt is then given up in its poll callback (an Error
    event, a Timeout event, or an Out event with a pending socket error),
    the candidates are tried strictly in the order of the resolved list, one
    descriptor at a time: each attempt creates its socket, registers it for
    Out with the connect timeout, and is unregistered and closed before the
    next socket is created.  After the last one the list is released once
    and Failed is entered once, with no descriptor open, nothing registered
    and the handle invalid; no callback raises. *)
Theorem candidates_given_up_in_turn (e : Env) (cands : list addrinfo)
    (fs : list failure) :
  getaddrinfo_result e = Some cands ->
  length (prepare_script e) = length cands ->
  length fs = length cands ->
  Forall pending (prepare_script e) ->
  Forall failure_ok fs ->
  sockopt_script e = sockopts fs ->
  let r := run (OpStart :: chain_events (prepare_script e) fs) (active_transport e) in
  Forall returned (fst r) /\
  mState (snd r) = Failed /\ idle (snd r) /\
  trace (snd r) =
    [ChangeState Connecting; SysGetaddrinfo]
    ++ chain_actions cands cands (prepare_script e) fs
    ++ [SysFreeaddrinfo; ChangeState Failed] /\
  length (List.filter is_failed_transition (trace (snd r))) = 1 /\
  length (List.filter is_freeaddrinfo (trace (snd r))) = 1.
Proof.
  intros Hg Hla Hlf Hpend Hfail Hso r. subst r.
  cbn [run step]. rewrite (start_active e cands Hg).
  set (w0 := log SysGetaddrinfo
               (log (ChangeState Connecting) (set_mState Connecting (active_transport e)))).
  destruct (chain_advances cands [] cands (prepare_script e) fs w0 [] [])
    as (wk & Erun & (Hik & Hfk & Hpk) & Hstk & _ & _ & Htrk); try assumption.
  - repeat split.
  - now rewrite app_nil_r.
  - cbn. now rewrite app_nil_r.
  - rewrite app_nil_r in Erun, Htrk.
    pose proof (attempt_ok cands cands w0) as Hok.
    destruct (attempt cands cands w0) as [r0 w1]. cbn [fst snd] in *. subst r0.
    rewrite Erun. cbn [fst snd outcome_unit attempt].
    assert (Htr : trace (snd ((freeaddrinfo ;;; changeState Failed) wk)) =
                  [ChangeState Connecting; SysGetaddrinfo]
                  ++ chain_actions cands cands (prepare_script e) fs
                  ++ [SysFreeaddrinfo; ChangeState Failed]).
    { cbn. rewrite Htrk. cbn. rewrite <- !app_assoc. reflexivity. }
    split.
    { constructor; [exact I|]. clear. induction fs; constructor; [exact I|assumption]. }
    split; [reflexivity|]. split; [repeat split; assumption|]. split; [exact Htr|].
    rewrite Htr, !List.filter_app.
    destruct (chain_actions_quiet cands cands (prepare_script e) fs) as [-> ->].
    split; reflexivity.
Qed.

Lemma candidates_given_up_in_turn_witness :
  let r := run [OpStart; OpEvent 5%Z EvTimeout; OpEvent 6%Z EvOut]
               (active_transport example_all_give_up) in
  mState (snd r) = Failed /\ idle (snd r) /\
  length (List.filter is_failed_transition (trace (snd r))) = 1.
Proof.
  destruct (candidates_given_up_in_turn example_all_give_up
              [mk_addrinfo 2 100; mk_addrinfo 10 101]
              [ByTimeout; BySoError (mk_sockopt_answer 0 111)])
    as (_ & Hst & Hidle & _ & Hone & _).
  - reflexivity.
  - reflexivity.
  - reflexivity.
  - repeat constructor; discriminate.
  - constructor; [exact I|]. constructor; [right; discriminate|constructor].
  - reflexivity.
  - split; [exact Hst|]. split; [exact Hidle|exact Hone].
Defined.

(** X10: the first connectable candidate wins.  When the attempts before
    it are given up in their poll callbacks and its own Out event finds no
    pending socket error, the transport is Connected on that candidate's
    socket, which is the only open descriptor and is registered for In
    without timeout with process() as callback; every earlier socket has
    been unregistered and closed, the candidate list has been released
    once, and the candidates behind it are never tried. *)
Theorem first_connectable_candidate_wins (e : Env) (failed rest : list addrinfo)
    (c : addrinfo) (answers more : list prepare_answer) (a : prepare_answer)
    (fs : list failure) (more_s : list sockopt_answer) :
  getaddrinfo_result e = Some (failed ++ c :: rest) ->
  prepare_script e = answers ++ a :: more ->
  sockopt_script e = sockopts fs ++ mk_sockopt_answer 0 0 :: more_s ->
  length answers = length failed ->
  length fs = length failed ->
  Forall pending answers -> pending a ->
  Forall failure_ok fs ->
  let cands := failed ++ c :: rest in
  let r := run (OpStart :: chain_events answers fs ++ [OpEvent (socket_ret a) EvOut])
               (active_transport e) in
  Forall returned (fst r) /\
  mState (snd r) = Connected /\
  mSock (snd r) = socket_ret a /\
  fds (snd r) = [socket_ret a] /\
  polls (snd r) = {[socket_ret a := mk_Params DirIn None ProcessCallback]} /\
  prepare_script (env (snd r)) = more /\
  trace (snd r) =
    [ChangeState Connecting; SysGetaddrinfo]
    ++ chain_actions cands cands answers fs
    ++ success_actions cands (c :: rest) c a /\
  length (List.filter is_freeaddrinfo (trace (snd r))) = 1.
Proof.
  intros Hg Hp Hs Hla Hlf Hpend Ha Hfail cands r. subst r.
  cbn [run step]. rewrite (start_active e cands Hg).
  set (w0 := log SysGetaddrinfo
               (log (ChangeState Connecting) (set_mState Connecting (active_transport e)))).
  destruct (chain_advances cands (c :: rest) failed answers fs w0 (a :: more)
              (mk_sockopt_answer 0 0 :: more_s) Hla Hlf Hpend Hfail)
    as (wk & Erun & (Hik & Hfk & Hpk) & Hstk & Hprk & Hsok & Htrk);
    [repeat split|exact Hp|exact Hs|].
  fold cands in Erun, Htrk.
  pose proof (attempt_ok cands cands w0) as Hok.
  destruct (attempt cands cands w0) as [r0 w1]. cbn [fst snd] in *. subst r0.
  rewrite run_app, Erun. cbn [fst snd].
  destruct (attempt_pending cands c rest wk a more Hprk Ha)
    as (w2 & E2 & Hs2 & Hf2 & Hp2 & Hst2 & Hpr2 & Hso2 & Htr2).
  rewrite E2. cbn [snd run step]. unfold PollService_deliver.
  rewrite Hp2, lookup_insert_eq. cbn [callback attempt_params run_callback].
  rewrite <- Hso2 in Hsok.
  destruct (callback_succeeds cands (c :: rest) w2 more_s Hsok)
    as (w3 & E3 & Hs3 & Hf3 & Hp3 & Hst3 & Htr3).
  rewrite E3. cbn [fst snd outcome_unit].
  assert (Htr : trace w3 =
                [ChangeState Connecting; SysGetaddrinfo]
                ++ chain_actions cands cands answers fs
                ++ success_actions cands (c :: rest) c a).
  { rewrite Htr3, Htr2, Htrk, Hs2. unfold success_actions. cbn.
    rewrite <- !app_assoc. reflexivity. }
  split.
  { constructor; [exact I|]. apply Forall_app. split.
    - clear. induction fs; constructor; [exact I|assumption].
    - repeat constructor. }
  split; [exact Hst3|]. split; [congruence|].
  split; [rewrite Hf3, Hf2, Hfk; reflexivity|].
  split.
  { rewrite Hp3, Hp2, Hpk, Hs2. rewrite insert_insert_eq. reflexivity. }
  split.
  { pose proof (connect_callback_ok cands (c :: rest) EvOut w2) as _.
    assert (Hpr3 : prepare_script (env w3) = prepare_script (env w2)).
    { unfold connect_callback, try_catch, bind at 1, sys_getsockopt in E3.
      rewrite Hsok in E3. cbn in E3. injection E3 as <-. reflexivity. }
    congruence. }
  split; [exact Htr|].
  rewrite Htr, !List.filter_app.
  destruct (chain_actions_quiet cands cands answers fs) as [_ ->].
  reflexivity.
Qed.

Lemma first_connectable_candidate_wins_witness :
  let r := run [OpStart; OpEvent 5%Z EvError; OpEvent 6%Z EvOut; OpEvent 5%Z EvOut]
               (active_transport example_three_candidates) in
  mState (snd r) = Connected /\ mSock (snd r) = 5%Z /\ fds (snd r) = [5%Z] /\
  polls (snd r) = {[5%Z := mk_Params DirIn None ProcessCallback]}.
Proof.
  destruct (first_connectable_candidate_wins example_three_candidates
              [mk_addrinfo 2 100; mk_addrinfo 10 101] [] (mk_addrinfo 2 102)
              [mk_prepare_answer 5 0 ConnectInProgress;
               mk_prepare_answer 6 0 ConnectInProgress] []
              (mk_prepare_answer 5 0 ConnectDone)
              [ByError; BySoError (mk_sockopt_answer 0 111)] [])
    as (_ & Hst & Hs & Hf & Hp & _).
  - reflexivity.
  - reflexivity.
  - reflexivity.
  - reflexivity.
  - reflexivity.
  - repeat constructor; discriminate.
  - repeat constructor; discriminate.
  - constructor; [exact I|]. constructor; [right; discriminate|constructor].
  - split; [exact Hst|]. split; [exact Hs|]. split; [exact Hf|exact Hp].
Defined.

(** ** The passive transport and remoteAddress *)



Lemma split_at_last {A} (x : A) : forall h1 h2 s1 s2 : list A,
  x ∉ s1 -> x ∉ s2 -> h1 ++ x :: s1 = h2 ++ x :: s2 -> h1 = h2 /\ s1 = s2.
Proof.
  induction h1 as [|y h1 IH]; intros h2 s1 s2 H1 H2 E.
  - destruct h2 as [|z h2]; cbn in E.
    + now injection E.
    + injection E as _ ->. exfalso. apply H1. set_solver.
  - destruct h2 as [|z h2]; cbn in E.
    + injection E as _ <-. exfalso. apply H2. set_solver.
    + injection E as -> E. destruct (IH h2 s1 s2 H1 H2 E) as [-> ->]. now split.
Qed.

(** X12: remoteAddress() can be read back.  As long as the service holds
    no colon (it is numeric for an accepted socket), the text after the
    last colon is the service and the text before it the host name, also
    for host names that contain colons themselves: two transports with the
    same remote address have the same host name and the same service. *)
Theorem remoteAddress_determines_host_and_service (n1 n2 : Names) :
  ":"%byte ∉ mService n1 -> ":"%byte ∉ mService n2 ->
  remoteAddress n1 = remoteAddress n2 ->
  mHostname n1 = mHostname n2 /\ mService n1 = mService n2.
Proof.
  intros H1 H2 E. unfold remoteAddress in E. cbn in E.
  now apply (split_at_last ":"%byte).
Qed.

Lemma remoteAddress_determines_host_and_service_witness :
  let n := mk_Names false [":"; ":"; "1"]%byte ["8"; "0"]%byte in
  mHostname n = [":"; ":"; "1"]%byte /\ mService n = ["8"; "0"]%byte.
Proof.
  intros n.
  apply (remoteAddress_determines_host_and_service n
           (fst (TcpTransport_active [":"; ":"; "1"]%byte ["8"; "0"]%byte
                   (mk_Env None [] [] [] [])))).
  - cbn. intros H. repeat (apply elem_of_cons in H as [H|H]; [discriminate|]).
    now apply elem_of_nil in H.
  - cbn. intros H. repeat (apply elem_of_cons in H as [H|H]; [discriminate|]).
    now apply elem_of_nil in H.
  - reflexivity.
Defined.

(** ** After the disconnect sequence, and what the events leave alone *)

(** X13: the disconnect sequence is final.  Once process() has gone
    through it, the socket has no callback any more: later events for it do
    nothing (so no second end-of-stream notification follows) and every
    send() fails with "Connection is not open".  The world stays as the
    disconnect left it, with the descriptor still open. *)
Theorem disconnect_is_final (event : Event) (w w1 : World) (ops : list Op) :
  process_try event w = (Ok Break, w1) ->
  Forall (late_for (mSock w)) ops ->
  run ops (snd (process event w)) = (map late_outcome ops, snd (process event w)) /\
  fds (snd (process event w)) = fds w.
Proof.
  intros E Hl.
  pose proof (tame_process_try event w) as (Hs & Hf & _).
  rewrite E in Hs, Hf. cbn [snd] in Hs, Hf.
  rewrite (process_break _ _ _ E), disconnect_eq. cbn [snd].
  split; [|exact Hf].
  apply (run_late (mSock w)); [discriminate| |assumption].
  cbn. rewrite Hs. apply lookup_delete_eq.
Qed.

Lemma disconnect_is_final_witness :
  let w' := snd (process EvIn example_receiving) in
  run [OpEvent 7%Z EvIn; OpEvent 7%Z EvError; OpSend None] w' =
    ([Returned None; Returned None; Raised ConnectionIsNotOpen], w') /\
  fds w' = [7%Z].
Proof.
  intros w'.
  destruct (process_try_In [["a"; "b"]%byte; ["c"]%byte] (RecvData []) []
              example_receiving) as (w1 & E & _).
  - repeat constructor; discriminate.
  - reflexivity.
  - reflexivity.
  - apply (disconnect_is_final EvIn example_receiving w1
             [OpEvent 7%Z EvIn; OpEvent 7%Z EvError; OpSend None] E).
    repeat constructor.
Defined.

(** X14: only an Out event writes.  For every other event process() leaves
    the bytes on the wire and the send queue exactly as they are, whatever
    is read and whether or not the connection is torn down; and for no
    event at all does process() change the handle or the set of open
    descriptors, or call ::socket or ::closesocket. *)
Theorem only_Out_writes (event : Event) (w : World) :
  let w' := snd (process event w) in
  (event <> EvOut -> wire w' = wire w /\ mSendQueue w' = mSendQueue w) /\
  mSock w' = mSock w /\ fds w' = fds w /\
  exists ext, trace w' = trace w ++ ext /\ Forall tame_action ext.
Proof.
  intros w'. subst w'. split.
  - intros Hne.
    assert (Hq : preserves quiet (process event)).
    { unfold process, process_try, process_switch.
      destruct event; try contradiction; preserves_walk.
      intros w0. apply quiet_process_In_loop. }
    destruct (Hq w) as (Hqueue & Hwire & _). now split.
  - destruct (tame_process event w) as (Hs & Hf & Hext & _).
    split; [exact Hs|]. split; [exact Hf|exact Hext].
Qed.

(** X15: flushing an empty queue is free.  On a Connected transport with
    nothing queued, send() with a null message or with an empty message
    returns true without a single system call and without touching the
    registration: the world is unchanged. *)
Theorem send_nothing_with_nothing_queued (message : message_ptr) (w : World) :
  mState w = Connected -> mSendQueue w = [] ->
  message = None \/ message = Some [] ->
  send message w = (Ok true, w).
Proof.
  intros Hc Hq Hm. rewrite send_connected by assumption.
  assert (Ef : trySendQueue w = (Ok true, w)).
  { unfold trySendQueue. now rewrite Hq. }
  destruct Hm as [-> | ->]; [exact Ef|].
  unfold outgoing. rewrite (bind_ok _ _ _ _ _ Ef).
  now rewrite (bind_ok _ _ _ _ _ (trySendMessage_empty w)).
Qed.

Lemma send_nothing_with_nothing_queued_witness :
  send (Some []) example_connected = (Ok true, example_connected) /\
  send None example_connected = (Ok true, example_connected).
Proof.
  split.
  - apply (send_nothing_with_nothing_queued (Some []) example_connected);
      [reflexivity|reflexivity|now right].
  - reflexivity.
Defined.
